(** * Byte-level primitives of the binary toolkit: uint.ts, big.ts, bytes.ts

    A shallow embedding of the unsigned-integer codec (both byte orders),
    the arbitrary-precision integer codec and the growable byte buffer,
    followed by the properties the toolkit's specification states about
    them.

    Conventions of the embedding:
    - a [Uint8Array] is a [list byte]; an element store [a[i] = x] converts
      [x] with ToUint8 (reduction modulo 256) and is a no-op when [i] is
      past the end, as in the host language;
    - a [number] or [bigint] that carries a value is a [Z]; offsets, lengths
      and loop counters, which the code only ever uses as non-negative
      integers, are [nat];
    - the host's 32-bit operators [<<], [>>], [|] and [&] on [number] are
      written out with their ToInt32 conversions; the same operators on
      [bigint] are the unbounded [Z.shiftl], [Z.shiftr], [Z.lor], [Z.land];
    - a method that reads or mutates an object is a computation in a small
      state-and-exception monad whose state is that object; a [throw] keeps
      the state reached so far, so an early rejection is observably
      different from a rejection after a partial write. *)

From Stdlib Require Import ZArith Lia List Bool Btauto.
From Stdlib Require String.
Import String.StringSyntax.
From coqutil Require Import Byte Z.bitblast Z.prove_Zeq_bitwise.
From coqutil Require Import Word.LittleEndianList.
From Equations Require Import Equations.
Import ListNotations.

Local Open Scope string_scope.
Local Open Scope Z_scope.

(** ** Host semantics *)

Module JS.

(** Completion of a call: a normal return or a thrown [TypeError] /
    [RangeError] with its message. *)
Inductive outcome (A : Type) : Type :=
| Return (a : A)
| Throw (message : String.string).
Arguments Return {A} a.
Arguments Throw {A} message.

(** State-and-exception monad over the mutable object [S]. *)
Definition M (S A : Type) : Type := S -> outcome A * S.

Definition ret {S A} (a : A) : M S A := fun s => (Return a, s).

Definition bind {S A B} (m : M S A) (k : A -> M S B) : M S B :=
  fun s =>
    match m s with
    | (Return a, s') => k a s'
    | (Throw e, s') => (Throw e, s')
    end.

Definition throw {S A} (message : String.string) : M S A :=
  fun s => (Throw message, s).

Definition get {S} : M S S := fun s => (Return s, s).

(** [for (let i = start; i < start + count; i++) body(i)] *)
Fixpoint for_ {S} (count start : nat) (body : nat -> M S unit) : M S unit :=
  match count with
  | O => ret tt
  | Datatypes.S c => bind (body start) (fun _ => for_ c (Datatypes.S start) body)
  end.

(** The same loop around a local accumulator ([result |= ...],
    [decoded += ...]). *)
Fixpoint for_acc {S A} (count start : nat) (acc : A) (body : nat -> A -> M S A)
  : M S A :=
  match count with
  | O => ret acc
  | Datatypes.S c =>
      bind (body start acc) (fun acc' => for_acc c (Datatypes.S start) acc' body)
  end.

(** ToInt32: reduce modulo 2^32 into [-2^31, 2^31). *)
Definition ToInt32 (x : Z) : Z :=
  let m := x mod 2 ^ 32 in
  if m >=? 2 ^ 31 then m - 2 ^ 32 else m.

(** [a << b] on numbers. *)
Definition shl (a b : Z) : Z :=
  ToInt32 (Z.shiftl (ToInt32 a) (Z.land b 31)).

(** [a >> b] on numbers (sign-propagating). *)
Definition sar (a b : Z) : Z :=
  Z.shiftr (ToInt32 a) (Z.land b 31).

(** [a | b] on numbers. *)
Definition bor (a b : Z) : Z := Z.lor (ToInt32 a) (ToInt32 b).

(** [a & b] on numbers. *)
Definition band (a b : Z) : Z := Z.land (ToInt32 a) (ToInt32 b).

Definition Uint8Array : Type := list byte.

(** [new Uint8Array(n)]: [n] zero bytes. *)
Definition new_Uint8Array (n : nat) : Uint8Array := List.repeat Byte.x00 n.

(** [a[i]] as a number; every access in the code below is dominated by
    a length check, so the default is never returned. *)
Definition index (a : Uint8Array) (i : nat) : Z :=
  byte.unsigned (List.nth i a Byte.x00).

(** [a[i] = x]: ToUint8 conversion; ignored past the end. *)
Definition assign (a : Uint8Array) (i : nat) (x : Z) : Uint8Array :=
  if (i <? List.length a)%nat
  then List.firstn i a ++ byte.of_Z x :: List.skipn (Datatypes.S i) a
  else a.

(** [a.subarray(0, n)] and [a.slice(0, n)]: the end is clamped to the
    length.  The two differ in aliasing only, and every use below reads
    the view once, immediately. *)
Definition subarray0 (a : Uint8Array) (n : nat) : Uint8Array := List.firstn n a.
Definition slice0 (a : Uint8Array) (n : nat) : Uint8Array := List.firstn n a.

(** [a.set(src, off)]: copies [src] over [a] from index [off]; a
    [RangeError] when [src] does not fit. *)
Definition set (a src : Uint8Array) (off : nat) : option Uint8Array :=
  if (List.length a <? off + List.length src)%nat
  then None
  else Some (List.firstn off a ++ src ++ List.skipn (off + List.length src) a).

(** Array accesses as computations on the array held in the state. *)
Definition arrayLength : M Uint8Array nat :=
  fun a => (Return (List.length a), a).
Definition load (i : nat) : M Uint8Array Z :=
  fun a => (Return (index a i), a).
Definition store (i : nat) (x : Z) : M Uint8Array unit :=
  fun a => (Return tt, assign a i x).

End JS.

Import JS.

Declare Scope js_scope.
Delimit Scope js_scope with js.
Notation "x <- m ;; k" := (bind m (fun x => k))
  (at level 61, m at next level, right associativity) : js_scope.
Notation "m ;;; k" := (bind m (fun _ => k))
  (at level 61, right associativity) : js_scope.
Local Open Scope js_scope.

(** ** uint.ts *)

(** [interface ByteOrder]: the receiver array is the monad's state. *)
Record ByteOrder : Type := {
  uint8 : nat -> M Uint8Array Z;
  uint16 : nat -> M Uint8Array Z;
  uint32 : nat -> M Uint8Array Z;
  uint64 : nat -> M Uint8Array Z;
  putUint8 : Z -> nat -> M Uint8Array unit;
  putUint16 : Z -> nat -> M Uint8Array unit;
  putUint32 : Z -> nat -> M Uint8Array unit;
  putUint64 : Z -> nat -> M Uint8Array unit
}.

Module BigEndian.

Definition uint8 (offset : nat) : M Uint8Array Z :=
  len <- arrayLength ;;
  if (len <? offset + 1)%nat then throw "Insufficient bytes"
  else load offset.

Definition uint16 (offset : nat) : M Uint8Array Z :=
  len <- arrayLength ;;
  if (len <? offset + 2)%nat then throw "Insufficient bytes"
  else
    hi <- load offset ;;
    lo <- load (offset + 1) ;;
    ret (bor (shl hi 8) lo).

Definition uint32 (offset : nat) : M Uint8Array Z :=
  len <- arrayLength ;;
  if (len <? offset + 4)%nat then throw "Insufficient bytes"
  else
    for_acc 4 0 0 (fun i result =>
      b <- load (offset + i) ;;
      ret (bor result (shl b (24 - Z.of_nat i * 8)))).

Definition uint64 (offset : nat) : M Uint8Array Z :=
  len <- arrayLength ;;
  if (len <? offset + 8)%nat then throw "Insufficient bytes"
  else
    for_acc 8 0 0 (fun i result =>
      b <- load (offset + i) ;;
      ret (Z.lor result (Z.shiftl b (56 - Z.of_nat i * 8)))).

Definition putUint8 (value : Z) (offset : nat) : M Uint8Array unit :=
  len <- arrayLength ;;
  if (len <? offset + 1)%nat then throw "Not enough space"
  else if (value <? 0) || (value >? 255) then throw "Invalid uint8 value"
  else store offset value.

Definition putUint16 (value : Z) (offset : nat) : M Uint8Array unit :=
  len <- arrayLength ;;
  if (len <? offset + 2)%nat then throw "Not enough space"
  else if (value <? 0) || (value >? 65535) then throw "Invalid uint16 value"
  else
    store offset (sar value 8) ;;;
    store (offset + 1) (band value 255).

Definition putUint32 (value : Z) (offset : nat) : M Uint8Array unit :=
  len <- arrayLength ;;
  if (len <? offset + 4)%nat then throw "Not enough space"
  else if (value <? 0) || (value >? 4294967295) then throw "Invalid uint32 value"
  else
    for_ 4 0 (fun i =>
      store (offset + i) (band (sar value ((3 - Z.of_nat i) * 8)) 255)).

Definition putUint64 (value : Z) (offset : nat) : M Uint8Array unit :=
  len <- arrayLength ;;
  if (len <? offset + 8)%nat then throw "Not enough space"
  else if (value <? 0) || (value >? 18446744073709551615)
  then throw "Invalid uint64 value"
  else
    for_ 8 0 (fun i =>
      store (offset + i) (Z.land (Z.shiftr value ((7 - Z.of_nat i) * 8)) 255)).

End BigEndian.

Module LittleEndian.

Definition uint8 (offset : nat) : M Uint8Array Z :=
  len <- arrayLength ;;
  if (len <? offset + 1)%nat then throw "Insufficient bytes"
  else load offset.

Definition uint16 (offset : nat) : M Uint8Array Z :=
  len <- arrayLength ;;
  if (len <? offset + 2)%nat then throw "Insufficient bytes"
  else
    lo <- load offset ;;
    hi <- load (offset + 1) ;;
    ret (bor lo (shl hi 8)).

Definition uint32 (offset : nat) : M Uint8Array Z :=
  len <- arrayLength ;;
  if (len <? offset + 4)%nat then throw "Insufficient bytes"
  else
    for_acc 4 0 0 (fun i result =>
      b <- load (offset + i) ;;
      ret (bor result (shl b (Z.of_nat i * 8)))).

Definition uint64 (offset : nat) : M Uint8Array Z :=
  len <- arrayLength ;;
  if (len <? offset + 8)%nat then throw "Insufficient bytes"
  else
    for_acc 8 0 0 (fun i result =>
      b <- load (offset + i) ;;
      ret (Z.lor result (Z.shiftl b (Z.of_nat i * 8)))).

Definition putUint8 (value : Z) (offset : nat) : M Uint8Array unit :=
  len <- arrayLength ;;
  if (len <? 1 + offset)%nat then throw "Insufficient space"
  else if (value <? 0) || (value >? 255) then throw "Invalid uint8 value"
  else store offset value.

Definition putUint16 (value : Z) (offset : nat) : M Uint8Array unit :=
  len <- arrayLength ;;
  if (len <? 2 + offset)%nat then throw "Insufficient space"
  else if (value <? 0) || (value >? 65535) then throw "Invalid uint16 value"
  else
    store offset (band value 255) ;;;
    store (offset + 1) (sar value 8).

Definition putUint32 (value : Z) (offset : nat) : M Uint8Array unit :=
  len <- arrayLength ;;
  if (len <? 4 + offset)%nat then throw "Insufficient space"
  else if (value <? 0) || (value >? 4294967295) then throw "Invalid uint32 value"
  else
    for_ 4 0 (fun i =>
      store (offset + i) (band (sar value (Z.of_nat i * 8)) 255)).

Definition putUint64 (value : Z) (offset : nat) : M Uint8Array unit :=
  len <- arrayLength ;;
  if (len <? 8 + offset)%nat then throw "Insufficient space"
  else if (value <? 0) || (value >? 18446744073709551615)
  then throw "Invalid uint64 value"
  else
    for_ 8 0 (fun i =>
      store (offset + i) (Z.land (Z.shiftr value (Z.of_nat i * 8)) 255)).

End LittleEndian.

Definition bigEndian : ByteOrder := {|
  uint8 := BigEndian.uint8;
  uint16 := BigEndian.uint16;
  uint32 := BigEndian.uint32;
  uint64 := BigEndian.uint64;
  putUint8 := BigEndian.putUint8;
  putUint16 := BigEndian.putUint16;
  putUint32 := BigEndian.putUint32;
  putUint64 := BigEndian.putUint64
|}.

Definition littleEndian : ByteOrder := {|
  uint8 := LittleEndian.uint8;
  uint16 := LittleEndian.uint16;
  uint32 := LittleEndian.uint32;
  uint64 := LittleEndian.uint64;
  putUint8 := LittleEndian.putUint8;
  putUint16 := LittleEndian.putUint16;
  putUint32 := LittleEndian.putUint32;
  putUint64 := LittleEndian.putUint64
|}.

(** ** big.ts *)

(** The width search of [bigIntBytes]:
    [while (value > 2n ** BigInt(byteLength * 8) - 1n) byteLength++]. *)
Equations? byteLength_search (value : Z) (byteLength : nat) : nat
  by wf (Z.to_nat (Z.log2 value) + 1 - byteLength)%nat lt :=
  byteLength_search value byteLength
    with Z_gt_dec value (2 ^ Z.of_nat (byteLength * 8) - 1) := {
    | left _ => byteLength_search value (byteLength + 1)
    | right _ => byteLength }.
Proof.
  assert (Hpow : 2 ^ Z.of_nat (byteLength * 8) <= value) by lia.
  assert (Hlog : Z.of_nat (byteLength * 8) <= Z.log2 value).
  { apply Z.log2_le_pow2; lia. }
  lia.
Qed.

Definition bigIntBytes (value : Z) : Uint8Array :=
  let value := if value <? 0 then value * -1 else value in
  let byteLength := byteLength_search value 1 in
  let encoded := new_Uint8Array byteLength in
  snd (for_ (List.length encoded) 0 (fun i =>
         store i (Z.land
                    (Z.shiftr value (Z.of_nat ((List.length encoded - i - 1) * 8)))
                    255))
       encoded).

Definition bigIntFromBytes : M Uint8Array Z :=
  len <- arrayLength ;;
  if (len <? 1)%nat then throw "Empty Uint8Array"
  else
    for_acc len 0 0 (fun i decoded =>
      b <- load i ;;
      ret (decoded + Z.shiftl b (Z.of_nat ((len - 1 - i) * 8)))).

(** ** bytes.ts *)

Module DynamicBuffer.

(** The fields of a [DynamicBuffer]: the private backing store and the
    two public counters. *)
Record t : Type := {
  value : Uint8Array;
  capacity : nat;
  length : nat
}.

Definition put_value (v : Uint8Array) : M t unit :=
  fun this => (Return tt, {| value := v; capacity := capacity this; length := length this |}).
Definition put_capacity (c : nat) : M t unit :=
  fun this => (Return tt, {| value := value this; capacity := c; length := length this |}).
Definition put_length (n : nat) : M t unit :=
  fun this => (Return tt, {| value := value this; capacity := capacity this; length := n |}).

(** A call of [TypedArray.prototype.set] inside a method. *)
Definition typed_set (a src : Uint8Array) (off : nat) : M t Uint8Array :=
  match set a src off with
  | Some a' => ret a'
  | None => throw "RangeError"
  end.

Definition constructor (capacity : nat) : t :=
  {| value := new_Uint8Array capacity; capacity := capacity; length := 0 |}.

(** The growth loop of [write], which only touches [this.capacity]:
    [while (needed > capacity) capacity = capacity === 0 ? 1 : capacity * 2]
    with [needed = this.length + bytes.byteLength]. *)
Equations? grow (needed capacity : nat) : nat by wf (needed - capacity)%nat lt :=
  grow needed capacity with gt_dec needed capacity := {
    | left _ => grow needed (if (capacity =? 0)%nat then 1%nat else (capacity * 2)%nat)
    | right _ => capacity }.
Proof.
  destruct (Nat.eqb_spec capacity0 0); lia.
Qed.

Definition write (bytes : Uint8Array) : M t unit :=
  this <- get ;;
  if (length this + List.length bytes <=? capacity this)%nat then
    v <- typed_set (value this) bytes (length this) ;;
    put_value v ;;;
    put_length (length this + List.length bytes)
  else
    put_capacity (grow (length this + List.length bytes) (capacity this)) ;;;
    this <- get ;;
    newValue <- typed_set (new_Uint8Array (capacity this))
                  (subarray0 (value this) (length this)) 0 ;;
    newValue <- typed_set newValue bytes (length this) ;;
    put_value newValue ;;;
    put_length (length this + List.length bytes).

Definition writeByte (byte : Z) : M t unit :=
  this <- get ;;
  if (length this + 1 <=? capacity this)%nat then
    put_value (assign (value this) (length this) byte) ;;;
    put_length (length this + 1)
  else
    put_capacity (if (capacity this =? 0)%nat then 1%nat else (capacity this * 2)%nat) ;;;
    this <- get ;;
    newValue <- typed_set (new_Uint8Array (capacity this))
                  (subarray0 (value this) (length this)) 0 ;;
    put_value (assign newValue (length this) byte) ;;;
    put_length (length this + 1).

(** [readInto(target)]: the state is the caller's [target]; the buffer
    itself is only read. *)
Definition readInto (this : t) : M Uint8Array unit :=
  len <- arrayLength ;;
  if (len <? length this)%nat then throw "Not enough space"
  else
    fun target =>
      match set target (subarray0 (value this) (length this)) 0 with
      | Some target' => (Return tt, target')
      | None => (Throw "RangeError", target)
      end.

Definition bytes (this : t) : Uint8Array := slice0 (value this) (length this).

Definition clear : M t unit := put_length 0.

End DynamicBuffer.

(** [compareBytes(a, b)]: the loop of the function, leaving with [false]
    at the first index where the two arrays differ. *)
Fixpoint compareBytes_loop (count i : nat) (a b : Uint8Array) : bool :=
  match count with
  | O => true
  | Datatypes.S c =>
      if negb (index a i =? index b i) then false
      else compareBytes_loop c (Datatypes.S i) a b
  end.

Definition compareBytes (a b : Uint8Array) : bool :=
  if negb (List.length a =? List.length b)%nat then false
  else compareBytes_loop (List.length b) 0 a b.

(** [concatenateBytes(a, b)]: a fresh array filled by two calls of
    [set]; a [RangeError] of either call would leave the function. *)
Definition concatenateBytes (a b : Uint8Array) : outcome Uint8Array :=
  let result := new_Uint8Array (List.length a + List.length b) in
  match set result a 0 with
  | None => Throw "RangeError"
  | Some result =>
      match set result b (List.length a) with
      | None => Throw "RangeError"
      | Some result => Return result
      end
  end.

(** ** Vocabulary of the statements *)

(** The four widths of the codec. *)
Inductive width : Type := W8 | W16 | W32 | W64.

Definition byte_count (w : width) : nat :=
  match w with W8 => 1 | W16 => 2 | W32 => 4 | W64 => 8 end%nat.

Definition bit_count (w : width) : Z :=
  match w with W8 => 8 | W16 => 16 | W32 => 32 | W64 => 64 end.

(** The two process-wide instances. *)
Inductive endianness : Type := Big | Little.

Definition instance (e : endianness) : ByteOrder :=
  match e with Big => bigEndian | Little => littleEndian end.

(** [o.uint<w>(data, offset)] and [o.putUint<w>(target, value, offset)]. *)
Definition read (o : ByteOrder) (w : width) : nat -> M Uint8Array Z :=
  match w with
  | W8 => o.(uint8) | W16 => o.(uint16) | W32 => o.(uint32) | W64 => o.(uint64)
  end.

Definition write (o : ByteOrder) (w : width) : Z -> nat -> M Uint8Array unit :=
  match w with
  | W8 => o.(putUint8) | W16 => o.(putUint16)
  | W32 => o.(putUint32) | W64 => o.(putUint64)
  end.

(** The call ended in a thrown error. *)
Definition throws {A} (o : outcome A) : Prop := exists message, o = Throw message.

(** The bytes at [offset, offset + n). *)
Definition span (a : Uint8Array) (offset n : nat) : Uint8Array :=
  List.firstn n (List.skipn offset a).

(** The byte sequence a width and byte order assign to a value: byte [i]
    of the little-endian form holds bits [8i, 8i+8). *)
Definition encoding (e : endianness) (w : width) (v : Z) : list byte :=
  match e with
  | Little => le_split (byte_count w) v
  | Big => List.rev (le_split (byte_count w) v)
  end.

(** The number a byte sequence denotes under a byte order. *)
Definition decoding (e : endianness) (bs : list byte) : Z :=
  match e with
  | Little => le_combine bs
  | Big => le_combine (List.rev bs)
  end.

(** [Σ bytes[i] * 256^(n-1-i)] for [n] the length of [bytes]. *)
Fixpoint be_sum (bs : list byte) : Z :=
  match bs with
  | [] => 0
  | b :: bs' => byte.unsigned b * 256 ^ Z.of_nat (List.length bs') + be_sum bs'
  end.

(** No leading zero byte, length at least 1 (a lone zero byte is allowed). *)
Definition canonical (bs : list byte) : Prop :=
  match bs with
  | [] => False
  | [_] => True
  | b :: _ => b <> Byte.x00
  end.

(** The number [uint<w>] hands back for the unsigned value [x] its bytes
    denote: the 32-bit reader accumulates with the 32-bit [|] and [<<], so
    its result is the ToInt32 image of [x]. *)
Definition as_returned (w : width) (x : Z) : Z :=
  match w with W32 => ToInt32 x | _ => x end.

(** The representation invariant of a buffer: the backing store has
    [capacity] bytes and the logical length is within it.  The
    constructor establishes it and every method keeps it. *)
Definition represents (this : DynamicBuffer.t) : Prop :=
  (DynamicBuffer.length this <= DynamicBuffer.capacity this)%nat
  /\ Datatypes.length (DynamicBuffer.value this) = DynamicBuffer.capacity this.

(** A call that appends to a buffer. *)
Inductive call : Type :=
| Write (chunk : Uint8Array)
| WriteByte (byte : Z).

Definition perform (c : call) : M DynamicBuffer.t unit :=
  match c with
  | Write chunk => DynamicBuffer.write chunk
  | WriteByte byte => DynamicBuffer.writeByte byte
  end.

(** The calls of a sequence, in order. *)
Fixpoint perform_all (calls : list call) : M DynamicBuffer.t unit :=
  match calls with
  | [] => ret tt
  | c :: rest => perform c ;;; perform_all rest
  end.

(** The bytes a call asks to append: the chunk itself, or the one byte
    (a number, stored through ToUint8). *)
Definition chunk_of (c : call) : Uint8Array :=
  match c with
  | Write chunk => chunk
  | WriteByte byte => [byte.of_Z byte]
  end.

Definition chunks_of (calls : list call) : Uint8Array :=
  concat (map chunk_of calls).

(** The long vector of the test suite of big.ts. *)
Definition test_vector : Uint8Array :=
  [
   Byte.x33; Byte.xff; Byte.x8e; Byte.xec; Byte.x07; Byte.x9c; Byte.x46;
   Byte.x65; Byte.x7a; Byte.x20; Byte.xb5; Byte.xd4; Byte.xb4; Byte.x7d;
   Byte.xf6; Byte.xb0; Byte.x59; Byte.xca; Byte.x46; Byte.xb4; Byte.x4b;
   Byte.xfa; Byte.xae; Byte.x0d; Byte.x3b; Byte.xf6; Byte.x52; Byte.xf2].

(** A call that mutates a buffer, [clear] included. *)
Inductive operation : Type :=
| DoWrite (chunk : Uint8Array)
| DoWriteByte (byte : Z)
| DoClear.

Definition apply_operation (op : operation) : M DynamicBuffer.t unit :=
  match op with
  | DoWrite chunk => DynamicBuffer.write chunk
  | DoWriteByte byte => DynamicBuffer.writeByte byte
  | DoClear => DynamicBuffer.clear
  end.

Fixpoint apply_operations (ops : list operation) : M DynamicBuffer.t unit :=
  match ops with
  | [] => ret tt
  | op :: rest => apply_operation op ;;; apply_operations rest
  end.

(** The logical content a sequence of operations leaves behind, starting
    from the content [before]: what was appended since the last [clear]. *)
Fixpoint content_after (ops : list operation) (before : Uint8Array) : Uint8Array :=
  match ops with
  | [] => before
  | DoWrite chunk :: rest => content_after rest (before ++ chunk)
  | DoWriteByte byte :: rest => content_after rest (before ++ [byte.of_Z byte])
  | DoClear :: rest => content_after rest []
  end.

(** Two spans of an array that share no index. *)
Definition disjoint_spans (k1 n1 k2 n2 : nat) : Prop :=
  (k1 + n1 <= k2)%nat \/ (k2 + n2 <= k1)%nat.

(** One step of the growth policy: capacity 0 becomes 1, any other
    capacity doubles. *)
Definition doubled (capacity : nat) : nat :=
  if (capacity =? 0)%nat then 1%nat else (capacity * 2)%nat.

(** * Properties *)

(** ** Worked examples from the test suite *)

Example be_uint16_0102 :
  bigEndian.(uint16) 0%nat [Byte.x01; Byte.x02] = (Return 258, [Byte.x01; Byte.x02]).
Proof. reflexivity. Qed.

Example le_uint16_0102 :
  littleEndian.(uint16) 0%nat [Byte.x01; Byte.x02] = (Return 513, [Byte.x01; Byte.x02]).
Proof. reflexivity. Qed.

Example be_put32_high :
  bigEndian.(putUint32) 4294967295 0%nat (new_Uint8Array 4) =
  (Return tt, [Byte.xff; Byte.xff; Byte.xff; Byte.xff]).
Proof. vm_compute. reflexivity. Qed.

Example be_uint32_high :
  bigEndian.(uint32) 0%nat [Byte.xff; Byte.xff; Byte.xff; Byte.xff] =
  (Return (-1), [Byte.xff; Byte.xff; Byte.xff; Byte.xff]).
Proof. vm_compute. reflexivity. Qed.

Example bigIntBytes_256 : bigIntBytes 256 = [Byte.x01; Byte.x00].
Proof. vm_compute. reflexivity. Qed.

Example bigIntBytes_neg256 : bigIntBytes (-256) = [Byte.x01; Byte.x00].
Proof. vm_compute. reflexivity. Qed.

Example bigIntBytes_big :
  bigIntBytes 5476057457410545405175640567415649081748931656501235026509713265394
  = test_vector.
Proof. vm_compute. reflexivity. Qed.

Example bigIntFromBytes_256 :
  fst (bigIntFromBytes [Byte.x01; Byte.x00]) = Return 256.
Proof. vm_compute. reflexivity. Qed.

Example bigIntFromBytes_big :
  fst (bigIntFromBytes test_vector)
  = Return 5476057457410545405175640567415649081748931656501235026509713265394.
Proof. vm_compute. reflexivity. Qed.

Example write_scenario :
  let b := snd ((DynamicBuffer.write [Byte.x01] ;;;
                 DynamicBuffer.write (new_Uint8Array 100))
                  (DynamicBuffer.constructor 0)) in
  (DynamicBuffer.length b, DynamicBuffer.capacity b) = (101%nat, 128%nat)
  /\ DynamicBuffer.bytes b = Byte.x01 :: new_Uint8Array 100.
Proof. vm_compute. split; reflexivity. Qed.

Example writeByte_scenario :
  let b := snd ((DynamicBuffer.writeByte 1 ;;; DynamicBuffer.writeByte 2 ;;;
                 DynamicBuffer.writeByte 3 ;;; DynamicBuffer.writeByte 4)
                  (DynamicBuffer.constructor 0)) in
  DynamicBuffer.capacity b = 4%nat
  /\ DynamicBuffer.bytes b = [Byte.x01; Byte.x02; Byte.x03; Byte.x04].
Proof. vm_compute. split; reflexivity. Qed.

(** ** Host arithmetic *)

Section HostArithmetic.

Lemma testbit_high_bit m : 0 <= m < 2 ^ 32 -> Z.testbit m 31 = (2 ^ 31 <=? m).
Proof.
  intros Hm. destruct (Z.leb_spec (2 ^ 31) m) as [Hge | Hlt].
  - apply Z.testbit_true; [lia |].
    replace (m / 2 ^ 31) with 1; [reflexivity |].
    apply Z.div_unique with (r := m - 2 ^ 31); lia.
  - apply Z.testbit_false; [lia |].
    rewrite Z.div_small by lia. reflexivity.
Qed.

(** ToInt32 keeps the low 32 bits and extends bit 31 upwards. *)
Lemma ToInt32_testbit x i :
  0 <= i -> Z.testbit (ToInt32 x) i = Z.testbit x (Z.min i 31).
Proof.
  intros Hi. unfold ToInt32.
  assert (Hm : 0 <= x mod 2 ^ 32 < 2 ^ 32) by (apply Z.mod_pos_bound; lia).
  assert (H31 : Z.testbit x 31 = (2 ^ 31 <=? x mod 2 ^ 32)).
  { rewrite <- testbit_high_bit by exact Hm.
    rewrite Z.mod_pow2_bits_low by lia. reflexivity. }
  destruct (Z.leb_spec (2 ^ 31) (x mod 2 ^ 32)) as [Hge | Hlt].
  - replace (x mod 2 ^ 32 >=? 2 ^ 31) with true by (symmetry; apply Z.geb_le; lia).
    replace (x mod 2 ^ 32 - 2 ^ 32)
      with (Z.lor (x mod 2 ^ 32) (Z.shiftl (-1) 32)).
    + rewrite Z.lor_spec, Z.shiftl_spec by lia.
      destruct (Z.ltb_spec i 32) as [Hlo | Hhi].
      * rewrite Z.mod_pow2_bits_low, (Z.testbit_neg_r _ (i - 32)) by lia.
        rewrite Z.min_l by lia. apply orb_false_r.
      * rewrite Z.mod_pow2_bits_high, Z.testbit_minus1 by lia.
        rewrite Z.min_r by lia. rewrite H31. reflexivity.
    + rewrite Z.or_to_plus.
      * change (Z.shiftl (-1) 32) with (- 2 ^ 32). lia.
      * apply Z.bits_inj'. intros n Hn.
        rewrite Z.land_spec, Z.bits_0, Z.shiftl_spec by lia.
        destruct (Z.ltb_spec n 32).
        -- rewrite (Z.testbit_neg_r _ (n - 32)) by lia. apply andb_false_r.
        -- rewrite Z.mod_pow2_bits_high by lia. reflexivity.
  - replace (x mod 2 ^ 32 >=? 2 ^ 31) with false
      by (symmetry; rewrite Z.geb_leb; apply Z.leb_gt; lia).
    destruct (Z.ltb_spec i 32) as [Hlo | Hhi].
    + rewrite Z.mod_pow2_bits_low, Z.min_l by lia. reflexivity.
    + rewrite Z.mod_pow2_bits_high, Z.min_r by lia. rewrite H31. reflexivity.
Qed.

Lemma ToInt32_small x : - 2 ^ 31 <= x < 2 ^ 31 -> ToInt32 x = x.
Proof.
  intros Hx. unfold ToInt32.
  destruct (Z.ltb_spec x 0).
  - replace (x mod 2 ^ 32) with (x + 2 ^ 32).
    + replace (x + 2 ^ 32 >=? 2 ^ 31) with true by (symmetry; apply Z.geb_le; lia).
      lia.
    + apply Z.mod_unique with (q := -1); lia.
  - rewrite Z.mod_small by lia.
    replace (x >=? 2 ^ 31) with false
      by (symmetry; rewrite Z.geb_leb; apply Z.leb_gt; lia).
    reflexivity.
Qed.

(** On a 32-bit unsigned value ToInt32 subtracts 2^32 from the upper
    half of the range. *)
Lemma ToInt32_uint32 x :
  0 <= x < 2 ^ 32 -> ToInt32 x = if x <? 2 ^ 31 then x else x - 2 ^ 32.
Proof.
  intros Hx. unfold ToInt32. rewrite Z.mod_small by lia.
  destruct (Z.ltb_spec x (2 ^ 31)).
  - replace (x >=? 2 ^ 31) with false
      by (symmetry; rewrite Z.geb_leb; apply Z.leb_gt; lia).
    reflexivity.
  - replace (x >=? 2 ^ 31) with true by (symmetry; apply Z.geb_le; lia).
    reflexivity.
Qed.

Lemma ToInt32_lor a b : Z.lor (ToInt32 a) (ToInt32 b) = ToInt32 (Z.lor a b).
Proof.
  apply Z.bits_inj'. intros n Hn.
  rewrite Z.lor_spec, !ToInt32_testbit, Z.lor_spec by lia. reflexivity.
Qed.

Lemma ToInt32_idem a : ToInt32 (ToInt32 a) = ToInt32 a.
Proof.
  apply Z.bits_inj'. intros n Hn.
  rewrite !ToInt32_testbit by lia. f_equal. lia.
Qed.

Lemma ToInt32_shiftl a s :
  0 <= s -> ToInt32 (Z.shiftl (ToInt32 a) s) = ToInt32 (Z.shiftl a s).
Proof.
  intros Hs. apply Z.bits_inj'. intros n Hn.
  rewrite !ToInt32_testbit, !Z.shiftl_spec by lia.
  destruct (Z.ltb_spec (Z.min n 31) s).
  - rewrite !Z.testbit_neg_r by lia. reflexivity.
  - rewrite ToInt32_testbit by lia. f_equal. lia.
Qed.

Lemma bor_spec a b : bor a b = ToInt32 (Z.lor a b).
Proof. apply ToInt32_lor. Qed.

Lemma shl_spec a s : 0 <= s < 32 -> shl a s = ToInt32 (Z.shiftl a s).
Proof.
  intros Hs. unfold shl.
  replace (Z.land s 31) with s.
  - apply ToInt32_shiftl. lia.
  - change 31 with (Z.ones 5). rewrite Z.land_ones by lia.
    symmetry. apply Z.mod_small. change (2 ^ 5) with 32. lia.
Qed.

(** ToUint8 only looks at the low eight bits. *)
Lemma of_Z_testbit x y :
  (forall i, 0 <= i < 8 -> Z.testbit x i = Z.testbit y i) ->
  byte.of_Z x = byte.of_Z y.
Proof.
  intros H. apply byte.unsigned_inj.
  rewrite !byte.unsigned_of_Z. unfold byte.wrap.
  apply Z.bits_inj'. intros n Hn.
  rewrite !Z.testbit_mod_pow2 by lia.
  destruct (Z.ltb_spec n 8); [| reflexivity].
  cbn. apply H. lia.
Qed.

Lemma of_Z_land_255 x : byte.of_Z (Z.land x 255) = byte.of_Z x.
Proof.
  apply of_Z_testbit. intros i Hi.
  change 255 with (Z.ones 8).
  rewrite Z.land_spec, Z.testbit_ones_nonneg by lia.
  replace (i <? 8) with true by (symmetry; apply Z.ltb_lt; lia).
  apply andb_true_r.
Qed.

(** The byte a 32-bit [(value >> s) & 0xff] stores is the byte of the
    unbounded shift, as long as the eight bits lie below bit 32. *)
Lemma of_Z_sar v s :
  0 <= s <= 24 -> byte.of_Z (sar v s) = byte.of_Z (Z.shiftr v s).
Proof.
  intros Hs. apply of_Z_testbit. intros i Hi. unfold sar.
  replace (Z.land s 31) with s.
  - rewrite !Z.shiftr_spec, ToInt32_testbit by lia. f_equal. lia.
  - change 31 with (Z.ones 5). rewrite Z.land_ones by lia.
    symmetry. apply Z.mod_small. change (2 ^ 5) with 32. lia.
Qed.

Lemma of_Z_band_255 x : byte.of_Z (band x 255) = byte.of_Z x.
Proof.
  apply of_Z_testbit. intros i Hi. unfold band.
  rewrite Z.land_spec, !ToInt32_testbit by lia.
  rewrite !Z.min_l by lia. change 255 with (Z.ones 8).
  rewrite Z.testbit_ones_nonneg by lia.
  replace (i <? 8) with true by (symmetry; apply Z.ltb_lt; lia).
  apply andb_true_r.
Qed.

End HostArithmetic.

(** ** Arrays and loops *)

Section Arrays.

Lemma array_split (a : Uint8Array) (k n : nat) :
  (k + n <= length a)%nat ->
  a = firstn k a ++ span a k n ++ skipn (k + n) a
  /\ length (firstn k a) = k
  /\ length (span a k n) = n.
Proof.
  intros Hlen. unfold span. repeat split.
  - rewrite <- (firstn_skipn k a) at 1. f_equal.
    rewrite <- (firstn_skipn n (skipn k a)) at 1. f_equal.
    rewrite skipn_skipn. f_equal. lia.
  - rewrite length_firstn. lia.
  - rewrite length_firstn, length_skipn. lia.
Qed.

Lemma span_middle (pre mid post : Uint8Array) :
  span (pre ++ mid ++ post) (length pre) (length mid) = mid.
Proof.
  unfold span. rewrite skipn_app, skipn_all, Nat.sub_diag. cbn.
  rewrite firstn_app, firstn_all, Nat.sub_diag. cbn.
  apply app_nil_r.
Qed.

Lemma assign_middle (l1 l2 : Uint8Array) (b : byte) (x : Z) :
  assign (l1 ++ b :: l2) (length l1) x = l1 ++ byte.of_Z x :: l2.
Proof.
  unfold assign.
  replace (length l1 <? length (l1 ++ b :: l2))%nat with true.
  - rewrite firstn_app, firstn_all, Nat.sub_diag. cbn [firstn].
    rewrite app_nil_r. f_equal. f_equal.
    change (Datatypes.S (length l1)) with (1 + length l1)%nat.
    rewrite <- skipn_skipn.
    rewrite skipn_app, skipn_all, Nat.sub_diag. reflexivity.
  - symmetry. apply Nat.ltb_lt. rewrite length_app. cbn. lia.
Qed.

Lemma index_app (l1 l2 : Uint8Array) (i : nat) :
  index (l1 ++ l2) (length l1 + i) = index l2 i.
Proof.
  unfold index. rewrite app_nth2 by lia. f_equal. f_equal. lia.
Qed.

(** A counted loop of element stores fills a span left to right. *)
Lemma for_store (f : nat -> Z) (offset : nat) :
  forall (c s : nat) (l1 l2 post : Uint8Array),
    length l1 = (offset + s)%nat ->
    length l2 = c ->
    for_ c s (fun i => store (offset + i) (f i)) (l1 ++ l2 ++ post)
    = (Return tt, l1 ++ map (fun i => byte.of_Z (f i)) (seq s c) ++ post).
Proof.
  induction c as [| c IH]; intros s l1 l2 post Hl1 Hl2.
  - destruct l2; [reflexivity | discriminate].
  - destruct l2 as [| b l2]; [discriminate |].
    cbn [for_ seq map]. unfold bind at 1, store at 1.
    rewrite <- Hl1. cbn [app]. rewrite assign_middle.
    change (l1 ++ byte.of_Z (f s) :: l2 ++ post)
      with (l1 ++ [byte.of_Z (f s)] ++ l2 ++ post).
    rewrite app_assoc.
    rewrite IH.
    + rewrite <- app_assoc. reflexivity.
    + rewrite length_app. cbn. lia.
    + cbn in Hl2. lia.
Qed.

Lemma store_loop (f : nat -> Z) (offset n : nat) (target : Uint8Array) :
  (offset + n <= length target)%nat ->
  for_ n 0 (fun i => store (offset + i) (f i)) target
  = (Return tt,
     firstn offset target
       ++ map (fun i => byte.of_Z (f i)) (seq 0 n)
       ++ skipn (offset + n) target).
Proof.
  intros Hlen. destruct (array_split target offset n Hlen) as (Heq & Hpre & Hmid).
  rewrite Heq at 1. apply for_store; [lia | exact Hmid].
Qed.

(** A counted loop of loads around an accumulator is a left fold and
    leaves the array alone. *)
Lemma for_acc_load {A} (F : nat -> A -> Z -> A) (g : nat -> nat) (a : Uint8Array) :
  forall (c s : nat) (acc : A),
    for_acc c s acc (fun i r => b <- load (g i) ;; ret (F i r b)) a
    = (Return (fold_left (fun r i => F i r (index a (g i))) (seq s c) acc), a).
Proof.
  induction c as [| c IH]; intros s acc; [reflexivity |].
  cbn [for_acc seq fold_left].
  unfold bind at 1. unfold bind at 1. unfold load at 1, ret at 1.
  apply IH.
Qed.

Lemma index_span (a : Uint8Array) (k n i : nat) :
  (i < n)%nat -> index a (k + i) = index (span a k n) i.
Proof.
  intros Hi. unfold index, span. rewrite nth_firstn, nth_skipn.
  replace (i <? n)%nat with true by (symmetry; apply Nat.ltb_lt; exact Hi).
  reflexivity.
Qed.

Lemma rev_map_seq {A} (f : nat -> A) (n : nat) :
  rev (map f (seq 0 n))
  = map (fun i => f (n - 1 - i)%nat) (seq 0 n).
Proof.
  induction n as [| n IH]; [reflexivity |].
  rewrite seq_S at 1. rewrite map_app, rev_app_distr. cbn [rev map app Nat.add].
  cbn [seq map]. f_equal.
  - f_equal. lia.
  - rewrite IH, <- seq_shift, map_map.
    apply map_ext_in. intros i Hi. apply in_seq in Hi. f_equal. lia.
Qed.

End Arrays.

(** ** Byte-order arithmetic *)

Section ByteOrderArithmetic.

Lemma le_split_S (n : nat) (z : Z) :
  le_split (S n) z = byte.of_Z z :: le_split n (Z.shiftr z 8).
Proof. reflexivity. Qed.

Lemma le_combine_cons (b : byte) (bs : list byte) :
  le_combine (b :: bs) = Z.lor (byte.unsigned b) (Z.shiftl (le_combine bs) 8).
Proof. reflexivity. Qed.

(** The little-endian bytes of [v], as the write loops compute them. *)
Lemma le_bytes (v : Z) :
  forall n s,
    map (fun i => byte.of_Z (Z.shiftr v (Z.of_nat i * 8))) (seq s n)
    = le_split n (Z.shiftr v (Z.of_nat s * 8)).
Proof.
  induction n as [| n IH]; intros s; [reflexivity |].
  cbn [seq map]. rewrite IH, le_split_S. f_equal.
  rewrite Z.shiftr_shiftr by lia. f_equal. f_equal. lia.
Qed.

Lemma le_bytes_0 (v : Z) (n : nat) :
  map (fun i => byte.of_Z (Z.shiftr v (Z.of_nat i * 8))) (seq 0 n)
  = le_split n v.
Proof. rewrite le_bytes. reflexivity. Qed.

(** The same bytes, most significant first. *)
Lemma be_bytes_0 (v : Z) (n : nat) :
  map (fun i => byte.of_Z (Z.shiftr v (Z.of_nat (n - 1 - i) * 8))) (seq 0 n)
  = rev (le_split n v).
Proof.
  rewrite <- le_bytes_0.
  rewrite (rev_map_seq (fun i => byte.of_Z (Z.shiftr v (Z.of_nat i * 8)))).
  reflexivity.
Qed.

Lemma le_combine_split_small (n : nat) (v : Z) :
  0 <= v < 2 ^ (Z.of_nat n * 8) -> le_combine (le_split n v) = v.
Proof. intros Hv. rewrite le_combine_split. apply Z.mod_small. exact Hv. Qed.

Lemma in_range_bound (w : width) (v : Z) :
  0 <= v <= 2 ^ bit_count w - 1 -> 0 <= v < 2 ^ (Z.of_nat (byte_count w) * 8).
Proof. destruct w; cbn; lia. Qed.

Lemma decoding_encoding (e : endianness) (w : width) (v : Z) :
  0 <= v <= 2 ^ bit_count w - 1 -> decoding e (encoding e w v) = v.
Proof.
  intros Hv. apply in_range_bound in Hv.
  destruct e; unfold decoding, encoding; rewrite ?rev_involutive;
    apply le_combine_split_small; exact Hv.
Qed.

Lemma length_encoding (e : endianness) (w : width) (v : Z) :
  length (encoding e w v) = byte_count w.
Proof.
  destruct e; unfold encoding; rewrite ?length_rev; apply length_le_split.
Qed.

End ByteOrderArithmetic.

(** ** What the codec's methods compute *)

Section Codec.

Lemma range_check_passes (v m : Z) :
  0 <= v <= m -> (v <? 0) || (v >? m) = false.
Proof.
  intros Hv. apply orb_false_iff. split.
  - apply Z.ltb_ge. lia.
  - rewrite Z.gtb_ltb. apply Z.ltb_ge. lia.
Qed.

Lemma range_check_fails (v m : Z) :
  ~ (0 <= v <= m) -> (v <? 0) || (v >? m) = true.
Proof.
  intros Hv. apply orb_true_iff.
  destruct (Z.ltb_spec v 0); [left; reflexivity | right].
  rewrite Z.gtb_ltb. apply Z.ltb_lt. lia.
Qed.

Lemma two_stores (x y : Z) (k : nat) (target : Uint8Array) :
  (k + 2 <= length target)%nat ->
  (store k x ;;; store (k + 1) y) target
  = (Return tt,
     firstn k target ++ [byte.of_Z x; byte.of_Z y] ++ skipn (k + 2) target).
Proof.
  intros Hlen.
  transitivity
    (for_ 2 0 (fun i => store (k + i) (match i with O => x | _ => y end)) target).
  - cbn [for_]. unfold bind, store, ret. rewrite Nat.add_0_r. reflexivity.
  - rewrite store_loop by exact Hlen. reflexivity.
Qed.

Ltac pass_length_guard :=
  unfold bind at 1, arrayLength at 1; cbv beta iota;
  match goal with
  | |- context [(?a <? ?b)%nat] =>
      replace (a <? b)%nat with false by (symmetry; apply Nat.ltb_ge; cbn in *; lia)
  end.

Ltac pass_guards Hv :=
  pass_length_guard; rewrite (range_check_passes _ _ Hv).

Lemma write_spec (e : endianness) (w : width) (v : Z) (k : nat)
      (target : Uint8Array) :
  (k + byte_count w <= length target)%nat ->
  0 <= v <= 2 ^ bit_count w - 1 ->
  write (instance e) w v k target
  = (Return tt,
     firstn k target ++ encoding e w v ++ skipn (k + byte_count w) target).
Proof.
  intros Hlen Hv.
  destruct e, w; cbn in Hv, Hlen;
    cbn [instance write bigEndian littleEndian putUint8 putUint16
         putUint32 putUint64 byte_count bit_count].
  - (* bigEndian.putUint8 *)
    unfold BigEndian.putUint8. pass_guards Hv.
    transitivity (for_ 1 0 (fun i => store (k + i) v) target).
    + cbn [for_]. unfold bind, store, ret. rewrite Nat.add_0_r. reflexivity.
    + rewrite store_loop by exact Hlen. reflexivity.
  - (* bigEndian.putUint16 *)
    unfold BigEndian.putUint16. pass_guards Hv.
    rewrite two_stores by exact Hlen.
    rewrite (of_Z_sar v 8), of_Z_band_255 by lia.
    unfold encoding, byte_count. rewrite <- (be_bytes_0 v 2). reflexivity.
  - (* bigEndian.putUint32 *)
    unfold BigEndian.putUint32. pass_guards Hv.
    rewrite store_loop by exact Hlen.
    unfold encoding, byte_count. rewrite <- (be_bytes_0 v 4).
    do 2 f_equal. f_equal. apply map_ext_in. intros i Hi. apply in_seq in Hi.
    rewrite of_Z_band_255, of_Z_sar by lia. do 2 f_equal. lia.
  - (* bigEndian.putUint64 *)
    unfold BigEndian.putUint64. pass_guards Hv.
    rewrite store_loop by exact Hlen.
    unfold encoding, byte_count. rewrite <- (be_bytes_0 v 8).
    do 2 f_equal. f_equal. apply map_ext_in. intros i Hi. apply in_seq in Hi.
    rewrite of_Z_land_255. do 2 f_equal. lia.
  - (* littleEndian.putUint8 *)
    unfold LittleEndian.putUint8. pass_guards Hv.
    transitivity (for_ 1 0 (fun i => store (k + i) v) target).
    + cbn [for_]. unfold bind, store, ret. rewrite Nat.add_0_r. reflexivity.
    + rewrite store_loop by exact Hlen. reflexivity.
  - (* littleEndian.putUint16 *)
    unfold LittleEndian.putUint16. pass_guards Hv.
    rewrite two_stores by exact Hlen.
    rewrite (of_Z_sar v 8), of_Z_band_255 by lia.
    unfold encoding, byte_count. rewrite <- (le_bytes_0 v 2). reflexivity.
  - (* littleEndian.putUint32 *)
    unfold LittleEndian.putUint32. pass_guards Hv.
    rewrite store_loop by exact Hlen.
    unfold encoding, byte_count. rewrite <- (le_bytes_0 v 4).
    do 2 f_equal. f_equal. apply map_ext_in. intros i Hi. apply in_seq in Hi.
    rewrite of_Z_band_255, of_Z_sar by lia. reflexivity.
  - (* littleEndian.putUint64 *)
    unfold LittleEndian.putUint64. pass_guards Hv.
    rewrite store_loop by exact Hlen.
    unfold encoding, byte_count. rewrite <- (le_bytes_0 v 8).
    do 2 f_equal. f_equal. apply map_ext_in. intros i Hi.
    rewrite of_Z_land_255. reflexivity.
Qed.

(** Equations between nested [|] and [<<] over opaque bytes. *)
Ltac closed_shifts :=
  repeat match goal with
         | |- context [Z.shiftl ?x ?s] =>
             let s' := eval cbv in s in progress change s with s'
         end.

Ltac lor_equation :=
  rewrite ?le_combine_cons, ?le_combine_nil;
  closed_shifts;
  rewrite ?Z.shiftl_lor, ?Z.shiftl_shiftl, ?Z.shiftl_0_l, ?Z.shiftl_0_r by lia;
  closed_shifts;
  apply Z.bits_inj'; intros ?n ?Hn; rewrite ?Z.lor_spec, ?Z.bits_0; btauto.

Lemma span_1 (a : Uint8Array) (k : nat) :
  (k + 1 <= length a)%nat -> exists b0, span a k 1 = [b0].
Proof.
  intros H. destruct (array_split a k 1 H) as (_ & _ & Hn).
  destruct (span a k 1) as [| b0 [| ? ?]]; try discriminate. eauto.
Qed.

Lemma span_2 (a : Uint8Array) (k : nat) :
  (k + 2 <= length a)%nat -> exists b0 b1, span a k 2 = [b0; b1].
Proof.
  intros H. destruct (array_split a k 2 H) as (_ & _ & Hn).
  destruct (span a k 2) as [| b0 [| b1 [| ? ?]]]; try discriminate. eauto.
Qed.

Lemma span_4 (a : Uint8Array) (k : nat) :
  (k + 4 <= length a)%nat -> exists b0 b1 b2 b3, span a k 4 = [b0; b1; b2; b3].
Proof.
  intros H. destruct (array_split a k 4 H) as (_ & _ & Hn).
  destruct (span a k 4) as [| b0 [| b1 [| b2 [| b3 [| ? ?]]]]]; try discriminate.
  eauto 6.
Qed.

Lemma span_8 (a : Uint8Array) (k : nat) :
  (k + 8 <= length a)%nat ->
  exists b0 b1 b2 b3 b4 b5 b6 b7, span a k 8 = [b0; b1; b2; b3; b4; b5; b6; b7].
Proof.
  intros H. destruct (array_split a k 8 H) as (_ & _ & Hn).
  destruct (span a k 8)
    as [| b0 [| b1 [| b2 [| b3 [| b4 [| b5 [| b6 [| b7 [| ? ?]]]]]]]]];
    try discriminate.
  eauto 10.
Qed.

Lemma ToInt32_uint16 (bs : list byte) :
  length bs = 2%nat -> ToInt32 (le_combine bs) = le_combine bs.
Proof.
  intros Hn. apply ToInt32_small.
  pose proof (le_combine_bound bs) as Hb. rewrite Hn in Hb.
  change (2 ^ (8 * Z.of_nat 2)) with 65536 in Hb. lia.
Qed.

Lemma read_spec (e : endianness) (w : width) (k : nat) (data : Uint8Array) :
  (k + byte_count w <= length data)%nat ->
  read (instance e) w k data
  = (Return (as_returned w (decoding e (span data k (byte_count w)))), data).
Proof.
  intros Hlen.
  destruct e, w; cbn in Hlen;
    cbn [instance read bigEndian littleEndian uint8 uint16 uint32 uint64
         byte_count as_returned decoding].
  - (* bigEndian.uint8 *)
    unfold BigEndian.uint8. pass_length_guard. unfold load.
    destruct (span_1 data k Hlen) as (b0 & Hs).
    rewrite <- (Nat.add_0_r k) at 1. rewrite (index_span data k 1 0) by lia.
    rewrite Hs. cbn [rev app]. rewrite le_combine_1. reflexivity.
  - (* bigEndian.uint16 *)
    unfold BigEndian.uint16. pass_length_guard.
    unfold bind, load, ret.
    destruct (span_2 data k Hlen) as (b0 & b1 & Hs).
    rewrite <- (Nat.add_0_r k) at 1.
    rewrite (index_span data k 2 0), (index_span data k 2 1) by lia.
    rewrite Hs. cbn [rev app]. unfold index. cbn [nth].
    rewrite shl_spec, bor_spec by lia.
    rewrite <- ToInt32_lor, ToInt32_idem, ToInt32_lor.
    rewrite <- (ToInt32_uint16 [b1; b0]) by reflexivity.
    do 3 f_equal. lor_equation.
  - (* bigEndian.uint32 *)
    unfold BigEndian.uint32. pass_length_guard.
    rewrite for_acc_load. cbn [seq fold_left].
    destruct (span_4 data k Hlen) as (b0 & b1 & b2 & b3 & Hs).
    rewrite (index_span data k 4 0), (index_span data k 4 1),
      (index_span data k 4 2), (index_span data k 4 3) by lia.
    rewrite Hs. cbn [rev app]. unfold index. cbn [nth].
    rewrite !shl_spec by (cbn; lia). rewrite !bor_spec.
    rewrite <- !ToInt32_lor, !ToInt32_idem, !ToInt32_lor.
    do 3 f_equal. lor_equation.
  - (* bigEndian.uint64 *)
    unfold BigEndian.uint64. pass_length_guard.
    rewrite for_acc_load. cbn [seq fold_left].
    destruct (span_8 data k Hlen) as (b0 & b1 & b2 & b3 & b4 & b5 & b6 & b7 & Hs).
    rewrite (index_span data k 8 0), (index_span data k 8 1),
      (index_span data k 8 2), (index_span data k 8 3),
      (index_span data k 8 4), (index_span data k 8 5),
      (index_span data k 8 6), (index_span data k 8 7) by lia.
    rewrite Hs. cbn [rev app]. unfold index. cbn [nth].
    do 2 f_equal. lor_equation.
  - (* littleEndian.uint8 *)
    unfold LittleEndian.uint8. pass_length_guard. unfold load.
    destruct (span_1 data k Hlen) as (b0 & Hs).
    rewrite <- (Nat.add_0_r k) at 1. rewrite (index_span data k 1 0) by lia.
    rewrite Hs. rewrite le_combine_1. reflexivity.
  - (* littleEndian.uint16 *)
    unfold LittleEndian.uint16. pass_length_guard.
    unfold bind, load, ret.
    destruct (span_2 data k Hlen) as (b0 & b1 & Hs).
    rewrite <- (Nat.add_0_r k) at 1.
    rewrite (index_span data k 2 0), (index_span data k 2 1) by lia.
    rewrite Hs. unfold index. cbn [nth].
    rewrite shl_spec, bor_spec by lia.
    rewrite <- ToInt32_lor, ToInt32_idem, ToInt32_lor.
    rewrite <- (ToInt32_uint16 [b0; b1]) by reflexivity.
    do 3 f_equal. lor_equation.
  - (* littleEndian.uint32 *)
    unfold LittleEndian.uint32. pass_length_guard.
    rewrite for_acc_load. cbn [seq fold_left].
    destruct (span_4 data k Hlen) as (b0 & b1 & b2 & b3 & Hs).
    rewrite (index_span data k 4 0), (index_span data k 4 1),
      (index_span data k 4 2), (index_span data k 4 3) by lia.
    rewrite Hs. unfold index. cbn [nth].
    rewrite !shl_spec by (cbn; lia). rewrite !bor_spec.
    rewrite <- !ToInt32_lor, !ToInt32_idem, !ToInt32_lor.
    do 3 f_equal. lor_equation.
  - (* littleEndian.uint64 *)
    unfold LittleEndian.uint64. pass_length_guard.
    rewrite for_acc_load. cbn [seq fold_left].
    destruct (span_8 data k Hlen) as (b0 & b1 & b2 & b3 & b4 & b5 & b6 & b7 & Hs).
    rewrite (index_span data k 8 0), (index_span data k 8 1),
      (index_span data k 8 2), (index_span data k 8 3),
      (index_span data k 8 4), (index_span data k 8 5),
      (index_span data k 8 6), (index_span data k 8 7) by lia.
    rewrite Hs. unfold index. cbn [nth].
    do 2 f_equal. lor_equation.
Qed.

Lemma read_short (e : endianness) (w : width) (k : nat) (data : Uint8Array) :
  (length data < k + byte_count w)%nat ->
  read (instance e) w k data = (Throw "Insufficient bytes", data).
Proof.
  intros Hlen.
  destruct e, w; cbn in Hlen; cbn [instance read bigEndian littleEndian uint8 uint16 uint32 uint64];
    unfold BigEndian.uint8, BigEndian.uint16, BigEndian.uint32, BigEndian.uint64,
      LittleEndian.uint8, LittleEndian.uint16, LittleEndian.uint32, LittleEndian.uint64;
    unfold bind at 1, arrayLength at 1; cbv beta iota;
    match goal with
    | |- context [(?a <? ?b)%nat] =>
        replace (a <? b)%nat with true by (symmetry; apply Nat.ltb_lt; lia)
    end; reflexivity.
Qed.

Ltac unfold_put :=
  cbn [instance write bigEndian littleEndian putUint8 putUint16 putUint32 putUint64];
  unfold BigEndian.putUint8, BigEndian.putUint16, BigEndian.putUint32,
    BigEndian.putUint64, LittleEndian.putUint8, LittleEndian.putUint16,
    LittleEndian.putUint32, LittleEndian.putUint64;
  unfold bind at 1, arrayLength at 1; cbv beta iota.

Lemma write_short (e : endianness) (w : width) (v : Z) (k : nat)
      (target : Uint8Array) :
  (length target < k + byte_count w)%nat ->
  exists message, write (instance e) w v k target = (Throw message, target).
Proof.
  intros Hlen.
  destruct e, w; cbn in Hlen; unfold_put;
    match goal with
    | |- context [(?a <? ?b)%nat] =>
        replace (a <? b)%nat with true by (symmetry; apply Nat.ltb_lt; lia)
    end; eexists; reflexivity.
Qed.

Lemma write_out_of_range (e : endianness) (w : width) (v : Z) (k : nat)
      (target : Uint8Array) :
  ~ (0 <= v <= 2 ^ bit_count w - 1) ->
  exists message, write (instance e) w v k target = (Throw message, target).
Proof.
  intros Hv.
  destruct e, w; cbn in Hv; unfold_put;
    match goal with
    | |- context [(?a <? ?b)%nat] => destruct (a <? b)%nat
    end;
    try rewrite (range_check_fails _ _ Hv); eexists; reflexivity.
Qed.

Lemma span_written (t enc : Uint8Array) (k n : nat) :
  (k + n <= length t)%nat -> length enc = n ->
  span (firstn k t ++ enc ++ skipn (k + n) t) k n = enc.
Proof.
  intros Hlen Henc.
  assert (Hk : length (firstn k t) = k) by (rewrite length_firstn; lia).
  pose proof (span_middle (firstn k t) enc (skipn (k + n) t)) as Hmid.
  rewrite Hk, Henc in Hmid. exact Hmid.
Qed.

(** Reading back what was just written yields the ToInt32 image of the
    value for the 32-bit width and the value itself for the others. *)
Lemma read_after_write (e : endianness) (w : width) (v : Z) (k : nat)
      (target : Uint8Array) :
  (k + byte_count w <= length target)%nat ->
  0 <= v <= 2 ^ bit_count w - 1 ->
  exists written,
    write (instance e) w v k target = (Return tt, written)
    /\ length written = length target
    /\ read (instance e) w k written = (Return (as_returned w v), written).
Proof.
  intros Hlen Hv. eexists. split; [apply write_spec; assumption |].
  assert (Hsame :
    length (firstn k target ++ encoding e w v ++ skipn (k + byte_count w) target)
    = length target).
  { rewrite !length_app, length_firstn, length_skipn, length_encoding. lia. }
  split; [exact Hsame |].
  rewrite read_spec by (rewrite Hsame; exact Hlen).
  rewrite span_written by (exact Hlen || apply length_encoding).
  rewrite decoding_encoding by exact Hv. reflexivity.
Qed.

(** Round trip for the 8-, 16- and 64-bit widths, and for the 32-bit
    width below 2^31. *)
Lemma round_trip (e : endianness) (w : width) (v : Z) (k : nat)
      (target : Uint8Array) :
  (k + byte_count w <= length target)%nat ->
  0 <= v <= 2 ^ bit_count w - 1 ->
  w <> W32 \/ v < 2 ^ 31 ->
  fst (read (instance e) w k (snd (write (instance e) w v k target))) = Return v.
Proof.
  intros Hlen Hv Hw.
  destruct (read_after_write e w v k target Hlen Hv) as (written & Hput & _ & Hget).
  rewrite Hput. cbn [snd]. rewrite Hget. cbn [fst]. f_equal.
  destruct w; try reflexivity.
  cbn [as_returned]. apply ToInt32_small.
  destruct Hw as [Hw | Hw]; [congruence | lia].
Qed.

(** The upper half of the 32-bit range comes back shifted down by 2^32. *)
Lemma round_trip_uint32_high (e : endianness) (v : Z) (k : nat)
      (target : Uint8Array) :
  (k + 4 <= length target)%nat ->
  2 ^ 31 <= v <= 2 ^ 32 - 1 ->
  fst (read (instance e) W32 k (snd (write (instance e) W32 v k target)))
  = Return (v - 2 ^ 32).
Proof.
  intros Hlen Hv.
  destruct (read_after_write e W32 v k target) as (written & Hput & _ & Hget);
    [exact Hlen | cbn; lia |].
  rewrite Hput. cbn [snd]. rewrite Hget. cbn [fst as_returned]. f_equal.
  rewrite ToInt32_uint32 by lia.
  replace (v <? 2 ^ 31) with false by (symmetry; apply Z.ltb_ge; lia).
  reflexivity.
Qed.

End Codec.

(** ** The unsigned-integer codec: round trip, rejection, byte reversal *)

(** C1 (round trip of put-uint then read-uint), evaluated where it breaks:
    writing 2147483648 (2^31, inside the 32-bit unsigned range) at offset 0
    of four zero bytes succeeds under either byte order and stores the right
    bytes, but the matching [uint32] then returns -2147483648, because its
    accumulator is built with the 32-bit signed [<<] and [|].  The widths
    8, 16 and 64, and the 32-bit values below 2^31, do round-trip
    ([round_trip]); every 32-bit value from 2^31 up comes back lowered by
    2^32 ([round_trip_uint32_high]). *)
Theorem C1_uint32_round_trip_high_bit :
  write bigEndian W32 2147483648 0 (new_Uint8Array 4)
  = (Return tt, [Byte.x80; Byte.x00; Byte.x00; Byte.x00])
  /\ fst (read bigEndian W32 0 [Byte.x80; Byte.x00; Byte.x00; Byte.x00])
     = Return (-2147483648)
  /\ write littleEndian W32 2147483648 0 (new_Uint8Array 4)
     = (Return tt, [Byte.x00; Byte.x00; Byte.x00; Byte.x80])
  /\ fst (read littleEndian W32 0 [Byte.x00; Byte.x00; Byte.x00; Byte.x80])
     = Return (-2147483648).
Proof. repeat split; vm_compute; reflexivity. Qed.

(** C2 (validate-then-commit): for every width, byte order, offset and
    target, a put-uint whose value lies outside [0, 2^w - 1] or whose target
    is shorter than offset + w/8 throws, and the target array is exactly as
    it was before the call. *)
Theorem C2_rejected_write_mutates_nothing
        (e : endianness) (w : width) (v : Z) (k : nat) (target : Uint8Array) :
  v < 0 \/ v > 2 ^ bit_count w - 1 \/ (length target < k + byte_count w)%nat ->
  throws (fst (write (instance e) w v k target))
  /\ snd (write (instance e) w v k target) = target.
Proof.
  intros H.
  assert (Hthrow : exists message,
             write (instance e) w v k target = (Throw message, target)).
  { destruct H as [H | [H | H]].
    - apply write_out_of_range. lia.
    - apply write_out_of_range. lia.
    - apply write_short. exact H. }
  destruct Hthrow as (message & ->). split; [exists message |]; reflexivity.
Qed.

Lemma C2_rejected_write_witness :
  (18446744073709551616 < 0 \/ 18446744073709551616 > 2 ^ bit_count W64 - 1
   \/ (length [Byte.x01; Byte.x02; Byte.x03; Byte.x04; Byte.x05; Byte.x06;
               Byte.x07; Byte.x08] < 0 + byte_count W64)%nat)
  /\ throws (fst (write (instance Big) W64 18446744073709551616 0
                   [Byte.x01; Byte.x02; Byte.x03; Byte.x04; Byte.x05; Byte.x06;
                    Byte.x07; Byte.x08]))
  /\ snd (write (instance Big) W64 18446744073709551616 0
            [Byte.x01; Byte.x02; Byte.x03; Byte.x04; Byte.x05; Byte.x06;
             Byte.x07; Byte.x08])
     = [Byte.x01; Byte.x02; Byte.x03; Byte.x04; Byte.x05; Byte.x06;
        Byte.x07; Byte.x08].
Proof.
  assert (H : 18446744073709551616 < 0 \/ 18446744073709551616 > 2 ^ bit_count W64 - 1
   \/ (length [Byte.x01; Byte.x02; Byte.x03; Byte.x04; Byte.x05; Byte.x06;
               Byte.x07; Byte.x08] < 0 + byte_count W64)%nat).
  { right; left. cbn. lia. }
  split; [exact H |].
  exact (C2_rejected_write_mutates_nothing Big W64 18446744073709551616 0 _ H).
Defined.

(** C3 (insufficient bytes): for every width, byte order, array and
    offset, read-uint throws exactly when the array is shorter than
    offset + w/8, and it leaves the array as it was; put-uint throws
    exactly when the array is that short or the value is outside
    [0, 2^w - 1]. *)
Theorem C3_failure_conditions
        (e : endianness) (w : width) (k : nat) (data : Uint8Array) :
  (throws (fst (read (instance e) w k data))
   <-> (length data < k + byte_count w)%nat)
  /\ snd (read (instance e) w k data) = data
  /\ forall v,
       throws (fst (write (instance e) w v k data))
       <-> ((length data < k + byte_count w)%nat
            \/ v < 0 \/ v > 2 ^ bit_count w - 1).
Proof.
  destruct (Nat.lt_ge_cases (length data) (k + byte_count w)) as [Hshort | Hfits].
  - rewrite read_short by exact Hshort. cbn [fst snd].
    repeat split; try (intros _; assumption).
    + intros _. eexists. reflexivity.
    + intros _. left. exact Hshort.
    + intros _. destruct (write_short e w v k data Hshort) as (message & ->).
      exists message. reflexivity.
  - rewrite read_spec by exact Hfits. cbn [fst snd].
    repeat split.
    + intros (message & Habs). discriminate.
    + intros Habs. exfalso. lia.
    + intros (message & Hthrow).
      destruct (Z_lt_ge_dec v 0) as [Hneg | Hnonneg]; [right; left; exact Hneg |].
      destruct (Z_gt_le_dec v (2 ^ bit_count w - 1)) as [Hbig | Hsmall];
        [right; right; exact Hbig |].
      rewrite write_spec in Hthrow by (exact Hfits || lia). discriminate.
    + intros [Habs | Hrange]; [exfalso; lia |].
      destruct (write_out_of_range e w v k data) as (message & ->); [lia |].
      exists message. reflexivity.
Qed.

(** C7 (byte reversal): for every width, in-range value and valid offset,
    the w/8 bytes bigEndian's put-uint leaves at [offset, offset + w/8) are
    the reversal of the bytes littleEndian's put-uint leaves there; for
    width 8 the two write the same single byte. *)
Theorem C7_big_endian_is_reversed_little_endian
        (w : width) (v : Z) (k : nat) (target1 target2 : Uint8Array) :
  0 <= v <= 2 ^ bit_count w - 1 ->
  (k + byte_count w <= length target1)%nat ->
  (k + byte_count w <= length target2)%nat ->
  span (snd (write bigEndian w v k target1)) k (byte_count w)
  = rev (span (snd (write littleEndian w v k target2)) k (byte_count w))
  /\ (w = W8 ->
      span (snd (write bigEndian w v k target1)) k (byte_count w)
      = span (snd (write littleEndian w v k target2)) k (byte_count w)).
Proof.
  intros Hv Hlen1 Hlen2.
  change bigEndian with (instance Big).
  change littleEndian with (instance Little).
  rewrite (write_spec Big w v k target1 Hlen1 Hv).
  rewrite (write_spec Little w v k target2 Hlen2 Hv).
  cbn [snd].
  rewrite !span_written by (assumption || apply length_encoding).
  split.
  - unfold encoding. reflexivity.
  - intros ->. reflexivity.
Qed.

Lemma C7_byte_reversal_witness :
  span (snd (write bigEndian W32 305419896 1 (new_Uint8Array 6))) 1 (byte_count W32)
  = rev (span (snd (write littleEndian W32 305419896 1 (new_Uint8Array 5))) 1
           (byte_count W32))
  /\ span (snd (write bigEndian W32 305419896 1 (new_Uint8Array 6))) 1 (byte_count W32)
     = [Byte.x12; Byte.x34; Byte.x56; Byte.x78].
Proof.
  split.
  - apply (C7_big_endian_is_reversed_little_endian W32 305419896 1
             (new_Uint8Array 6) (new_Uint8Array 5)); cbn; lia.
  - vm_compute. reflexivity.
Defined.

(** ** The arbitrary-precision codec *)

Section BigInt.

(** The width search stops at the least byte count, not below its
    starting point, whose span holds the value. *)
Lemma byteLength_search_spec (value : Z) (start : nat) :
  let n := byteLength_search value start in
  (start <= n)%nat
  /\ value <= 2 ^ Z.of_nat (n * 8) - 1
  /\ forall m, (start <= m)%nat -> value <= 2 ^ Z.of_nat (m * 8) - 1 -> (n <= m)%nat.
Proof.
  funelim (byteLength_search value start).
  - (* one more iteration *)
    destruct H as (Hle & Hfit & Hmin).
    repeat split; [lia | exact Hfit |].
    intros m Hm Hvm. apply Hmin; [| exact Hvm].
    destruct (Nat.eq_dec m byteLength); [subst m; lia | lia].
  - (* the loop exits *)
    repeat split; [lia | lia | intros; assumption].
Qed.

Lemma negated_if_negative (value : Z) :
  (if value <? 0 then value * -1 else value) = Z.abs value.
Proof. destruct (Z.ltb_spec value 0); lia. Qed.

(** [bigIntBytes] emits the big-endian bytes of the magnitude in the
    width the search found. *)
Lemma bigIntBytes_spec (value : Z) :
  bigIntBytes value
  = rev (le_split (byteLength_search (Z.abs value) 1) (Z.abs value)).
Proof.
  unfold bigIntBytes. rewrite negated_if_negative. cbv zeta.
  set (n := byteLength_search (Z.abs value) 1).
  unfold new_Uint8Array. rewrite repeat_length.
  pose proof (store_loop
                (fun i => Z.land
                            (Z.shiftr (Z.abs value) (Z.of_nat ((n - i - 1) * 8)))
                            255)
                0 n (repeat Byte.x00 n)) as Hloop.
  cbn [Nat.add firstn app] in Hloop.
  rewrite Hloop by (rewrite repeat_length; lia). cbn [snd].
  rewrite skipn_all2, app_nil_r by (rewrite repeat_length; lia).
  rewrite <- be_bytes_0. apply map_ext_in. intros i Hi.
  rewrite of_Z_land_255. do 2 f_equal. lia.
Qed.

Lemma lor_shiftl_add (a b n : Z) :
  0 <= n -> 0 <= a < 2 ^ n -> Z.lor a (Z.shiftl b n) = a + Z.shiftl b n.
Proof.
  intros Hn Ha. apply Z.or_to_plus.
  apply Z.bits_inj'. intros i Hi.
  rewrite Z.land_spec, Z.bits_0, Z.shiftl_spec by lia.
  destruct (Z.ltb_spec i n).
  - rewrite (Z.testbit_neg_r b) by lia. apply andb_false_r.
  - rewrite (testbit_above Ha) by lia. reflexivity.
Qed.

(** The positional sum is the little-endian value of the reversed
    sequence. *)
Lemma be_sum_le_combine (bs : list byte) : be_sum bs = le_combine (rev bs).
Proof.
  induction bs as [| b bs IH]; [reflexivity |].
  cbn [be_sum rev]. rewrite le_combine_app, le_combine_1, length_rev.
  rewrite lor_shiftl_add.
  - rewrite Z.shiftl_mul_pow2 by lia. rewrite IH.
    replace (2 ^ (Z.of_nat (length bs) * 8)) with (256 ^ Z.of_nat (length bs)).
    + lia.
    + change 256 with (2 ^ 8). rewrite <- Z.pow_mul_r by lia. f_equal. lia.
  - lia.
  - pose proof (le_combine_bound (rev bs)) as Hb. rewrite length_rev in Hb.
    replace (Z.of_nat (length bs) * 8) with (8 * Z.of_nat (length bs)) by lia.
    exact Hb.
Qed.

Lemma be_sum_bound (bs : list byte) :
  0 <= be_sum bs < 2 ^ (8 * Z.of_nat (length bs)).
Proof.
  rewrite be_sum_le_combine, <- (length_rev bs). apply le_combine_bound.
Qed.

(** The accumulation loop of [bigIntFromBytes], from any position on. *)
Lemma decode_fold (bs : list byte) :
  forall (pre : list byte) (acc : Z),
    fold_left
      (fun decoded i =>
         decoded + Z.shiftl (index (pre ++ bs) i)
                     (Z.of_nat ((length (pre ++ bs) - 1 - i) * 8)))
      (seq (length pre) (length bs)) acc
    = acc + be_sum bs.
Proof.
  induction bs as [| b bs IH]; intros pre acc.
  - cbn. lia.
  - cbn [length seq fold_left be_sum].
    replace (pre ++ b :: bs) with ((pre ++ [b]) ++ bs)
      by (rewrite <- app_assoc; reflexivity).
    replace (S (length pre)) with (length (pre ++ [b]))
      by (rewrite length_app; cbn; lia).
    rewrite IH.
    replace (index ((pre ++ [b]) ++ bs) (length pre)) with (byte.unsigned b).
    + rewrite Z.shiftl_mul_pow2 by lia.
      replace (Z.of_nat ((length ((pre ++ [b]) ++ bs) - 1 - length pre) * 8))
        with (8 * Z.of_nat (length bs))
        by (rewrite !length_app; cbn [length]; lia).
      rewrite Z.pow_mul_r by lia. change (2 ^ 8) with 256. lia.
    + rewrite <- app_assoc. cbn [app].
      rewrite <- (Nat.add_0_r (length pre)). rewrite index_app. reflexivity.
Qed.

Lemma bigIntFromBytes_spec (bs : Uint8Array) :
  bs <> [] -> bigIntFromBytes bs = (Return (be_sum bs), bs).
Proof.
  intros Hne. unfold bigIntFromBytes.
  unfold bind at 1, arrayLength at 1. cbv beta iota.
  replace (length bs <? 1)%nat with false
    by (symmetry; apply Nat.ltb_ge; destruct bs; [congruence | cbn; lia]).
  rewrite (for_acc_load
             (fun i decoded b =>
                decoded + Z.shiftl b (Z.of_nat ((length bs - 1 - i) * 8)))
             (fun i => i)).
  do 2 f_equal. apply (decode_fold bs [] 0).
Qed.

Lemma bigIntFromBytes_empty :
  bigIntFromBytes [] = (Throw "Empty Uint8Array", []).
Proof. reflexivity. Qed.

Lemma be_sum_leading_zeros (zeros : nat) (bs : list byte) :
  be_sum (repeat Byte.x00 zeros ++ bs) = be_sum bs.
Proof.
  induction zeros as [| z IH]; [reflexivity |].
  cbn [repeat app be_sum]. rewrite IH.
  change (byte.unsigned Byte.x00) with 0. lia.
Qed.

Lemma unsigned_nonzero (b : byte) : b <> Byte.x00 -> 1 <= byte.unsigned b.
Proof.
  intros Hb. pose proof (byte.unsigned_range b) as Hr.
  destruct (Z.eq_dec (byte.unsigned b) 0) as [Hz | Hnz]; [| lia].
  exfalso. apply Hb. apply byte.unsigned_inj. rewrite Hz. reflexivity.
Qed.

Lemma of_Z_nonzero (q : Z) : 1 <= q < 256 -> byte.of_Z q <> Byte.x00.
Proof.
  intros Hq Habs. apply (f_equal byte.unsigned) in Habs.
  rewrite byte.unsigned_of_Z in Habs. unfold byte.wrap in Habs.
  change (2 ^ 8) with 256 in Habs. rewrite Z.mod_small in Habs by lia.
  change (byte.unsigned Byte.x00) with 0 in Habs. lia.
Qed.

(** The width of the output, characterised as the search leaves it. *)
Lemma bigIntBytes_length (value : Z) :
  let n := length (bigIntBytes value) in
  (1 <= n)%nat
  /\ Z.abs value <= 2 ^ (8 * Z.of_nat n) - 1
  /\ forall m, (1 <= m)%nat -> Z.abs value <= 2 ^ (8 * Z.of_nat m) - 1 -> (n <= m)%nat.
Proof.
  cbv zeta. rewrite bigIntBytes_spec, length_rev, length_le_split.
  destruct (byteLength_search_spec (Z.abs value) 1) as (H1 & Hfit & Hmin).
  repeat split.
  - exact H1.
  - replace (8 * Z.of_nat (byteLength_search (Z.abs value) 1))
      with (Z.of_nat (byteLength_search (Z.abs value) 1 * 8)) by lia.
    exact Hfit.
  - intros m Hm Hvm. apply Hmin; [exact Hm |].
    replace (Z.of_nat (m * 8)) with (8 * Z.of_nat m) by lia. exact Hvm.
Qed.

(** A nonzero magnitude reaches into the top byte of its width. *)
Lemma bigIntBytes_top (value : Z) :
  value <> 0 ->
  2 ^ (8 * Z.of_nat (length (bigIntBytes value) - 1)) <= Z.abs value.
Proof.
  intros Hnz. destruct (bigIntBytes_length value) as (H1 & Hfit & Hmin).
  set (n := length (bigIntBytes value)) in *.
  destruct (Nat.eq_dec n 1) as [-> | Hn].
  - cbn. lia.
  - destruct (Z_le_gt_dec (2 ^ (8 * Z.of_nat (n - 1))) (Z.abs value)) as [Hle | Hgt];
      [exact Hle |].
    specialize (Hmin (n - 1)%nat). lia.
Qed.

Lemma bigIntBytes_nth (value : Z) (i : nat) :
  (i < length (bigIntBytes value))%nat ->
  nth i (bigIntBytes value) Byte.x00
  = byte.of_Z (Z.shiftr (Z.abs value)
                 (8 * Z.of_nat (length (bigIntBytes value) - 1 - i))).
Proof.
  rewrite bigIntBytes_spec, length_rev, length_le_split. intros Hi.
  set (n := byteLength_search (Z.abs value) 1) in *.
  rewrite rev_nth by (rewrite length_le_split; exact Hi).
  rewrite length_le_split.
  apply nth_error_nth.
  rewrite nth_error_le_split by lia. do 3 f_equal. lia.
Qed.

Lemma bigIntBytes_head_nonzero (value : Z) :
  value <> 0 -> hd Byte.x00 (bigIntBytes value) <> Byte.x00.
Proof.
  intros Hnz.
  destruct (bigIntBytes_length value) as (H1 & Hfit & _).
  replace (hd Byte.x00 (bigIntBytes value)) with (nth 0 (bigIntBytes value) Byte.x00)
    by (destruct (bigIntBytes value); reflexivity).
  rewrite bigIntBytes_nth by lia.
  pose proof (bigIntBytes_top value Hnz) as Htop.
  set (n := length (bigIntBytes value)) in *.
  replace (n - 1 - 0)%nat with (n - 1)%nat by lia.
  apply of_Z_nonzero. rewrite Z.shiftr_div_pow2 by lia.
  assert (Hpos : 0 < 2 ^ (8 * Z.of_nat (n - 1))) by (apply Z.pow_pos_nonneg; lia).
  assert (Hsplit : 2 ^ (8 * Z.of_nat n) = 2 ^ (8 * Z.of_nat (n - 1)) * 256).
  { replace (8 * Z.of_nat n) with (8 * Z.of_nat (n - 1) + 8) by lia.
    rewrite Z.pow_add_r by lia. reflexivity. }
  split.
  - apply Z.div_le_lower_bound; lia.
  - apply Z.div_lt_upper_bound; lia.
Qed.

(** The encoder only produces canonical sequences. *)
Lemma bigIntBytes_canonical (value : Z) : canonical (bigIntBytes value).
Proof.
  destruct (Z.eq_dec value 0) as [-> | Hnz]; [vm_compute; exact I |].
  pose proof (bigIntBytes_head_nonzero value Hnz) as Hhd.
  destruct (bigIntBytes_length value) as (H1 & _).
  destruct (bigIntBytes value) as [| b0 [| b1 rest]]; cbn in *; [lia | exact I | exact Hhd].
Qed.

Lemma decode_bigIntBytes (value : Z) :
  bigIntFromBytes (bigIntBytes value) = (Return (Z.abs value), bigIntBytes value).
Proof.
  destruct (bigIntBytes_length value) as (H1 & Hfit & _).
  rewrite bigIntFromBytes_spec
    by (intros Habs; rewrite Habs in H1; cbn in H1; lia).
  do 2 f_equal.
  rewrite be_sum_le_combine. rewrite bigIntBytes_spec in *.
  rewrite length_rev, length_le_split in Hfit.
  rewrite rev_involutive. apply le_combine_split_small.
  replace (Z.of_nat (byteLength_search (Z.abs value) 1) * 8)
    with (8 * Z.of_nat (byteLength_search (Z.abs value) 1)) by lia.
  lia.
Qed.

Lemma be_sum_top (b : byte) (bs : list byte) :
  b <> Byte.x00 -> 2 ^ (8 * Z.of_nat (length bs)) <= be_sum (b :: bs).
Proof.
  intros Hb. cbn [be_sum].
  pose proof (unsigned_nonzero b Hb) as Hu.
  pose proof (be_sum_bound bs) as Hs.
  rewrite Z.pow_mul_r by lia. change (2 ^ 8) with 256.
  assert (0 < 256 ^ Z.of_nat (length bs)) by (apply Z.pow_pos_nonneg; lia).
  nia.
Qed.

Lemma encode_canonical (b : Uint8Array) :
  canonical b -> bigIntBytes (be_sum b) = b.
Proof.
  intros Hcan.
  pose proof (be_sum_bound b) as Hbound.
  assert (Hlen : length (bigIntBytes (be_sum b)) = length b).
  { destruct (bigIntBytes_length (be_sum b)) as (H1 & Hfit & Hmin).
    rewrite Z.abs_eq in * by lia.
    apply Nat.le_antisymm.
    - apply Hmin; [destruct b; [contradiction | cbn; lia] | lia].
    - destruct b as [| b0 [| b1 rest]]; [contradiction | exact H1 |].
      pose proof (be_sum_top b0 (b1 :: rest) Hcan) as Htop.
      set (y := be_sum (b0 :: b1 :: rest)) in *.
      set (m := length (bigIntBytes y)) in *.
      assert (Hlt : 2 ^ (8 * Z.of_nat (length (b1 :: rest))) < 2 ^ (8 * Z.of_nat m))
        by lia.
      apply Z.pow_lt_mono_r_iff in Hlt; [| lia | lia].
      cbn [length] in *. lia. }
  rewrite bigIntBytes_spec in *. rewrite length_rev, length_le_split in Hlen.
  rewrite Hlen, Z.abs_eq by lia.
  rewrite be_sum_le_combine. rewrite <- (length_rev b).
  rewrite split_le_combine. apply rev_involutive.
Qed.

End BigInt.

(** C4 (arbitrary-precision round trips): decoding the encoding of a
    non-negative integer gives the integer back, and encoding the decoding
    of a canonical byte sequence (at least one byte, no leading zero byte
    unless it is the only byte) gives the sequence back. *)
Theorem C4_bigint_round_trips (x : Z) (b : Uint8Array) :
  0 <= x ->
  canonical b ->
  fst (bigIntFromBytes (bigIntBytes x)) = Return x
  /\ exists y, fst (bigIntFromBytes b) = Return y /\ bigIntBytes y = b.
Proof.
  intros Hx Hcan. split.
  - rewrite decode_bigIntBytes. cbn [fst]. f_equal. lia.
  - exists (be_sum b). split.
    + rewrite bigIntFromBytes_spec by (destruct b; [contradiction | discriminate]).
      reflexivity.
    + apply encode_canonical. exact Hcan.
Qed.

Lemma C4_bigint_round_trips_witness :
  fst (bigIntFromBytes (bigIntBytes 65536)) = Return 65536
  /\ exists y, fst (bigIntFromBytes [Byte.x01; Byte.x00; Byte.xff]) = Return y
                /\ bigIntBytes y = [Byte.x01; Byte.x00; Byte.xff].
Proof.
  apply (C4_bigint_round_trips 65536 [Byte.x01; Byte.x00; Byte.xff]).
  - lia.
  - cbn. discriminate.
Defined.

(** C5 (canonical encoding of the magnitude): for every integer, negative
    ones included, [bigIntBytes] returns the big-endian bytes of the
    magnitude in the least byte count n >= 1 with |value| <= 2^(8n) - 1;
    the first byte is nonzero for a nonzero value, zero encodes as the
    single byte 0x00, and a value and its negation encode alike. *)
Theorem C5_bigIntBytes_minimal_big_endian (value : Z) :
  let n := length (bigIntBytes value) in
  (1 <= n)%nat
  /\ Z.abs value <= 2 ^ (8 * Z.of_nat n) - 1
  /\ (forall m, (1 <= m)%nat -> Z.abs value <= 2 ^ (8 * Z.of_nat m) - 1 -> (n <= m)%nat)
  /\ (forall i, (i < n)%nat ->
       nth i (bigIntBytes value) Byte.x00
       = byte.of_Z (Z.shiftr (Z.abs value) (8 * Z.of_nat (n - 1 - i))))
  /\ be_sum (bigIntBytes value) = Z.abs value
  /\ (value <> 0 -> hd Byte.x00 (bigIntBytes value) <> Byte.x00)
  /\ bigIntBytes 0 = [Byte.x00]
  /\ bigIntBytes (- value) = bigIntBytes value.
Proof.
  cbv zeta.
  destruct (bigIntBytes_length value) as (H1 & Hfit & Hmin).
  split; [exact H1 |]. split; [exact Hfit |]. split; [exact Hmin |].
  split; [intros i Hi; apply bigIntBytes_nth; exact Hi |].
  split.
  { pose proof (decode_bigIntBytes value) as Hd.
    rewrite bigIntFromBytes_spec in Hd
      by (intros Habs; rewrite Habs in H1; cbn in H1; lia).
    congruence. }
  split; [apply bigIntBytes_head_nonzero |].
  split; [vm_compute; reflexivity |].
  rewrite !bigIntBytes_spec, Z.abs_opp. reflexivity.
Qed.

(** C6 (lenient decode): [bigIntFromBytes] throws exactly on the empty
    sequence; on a non-empty sequence of length n it returns
    Σ bytes[i] * 256^(n-1-i), so prepending zero bytes does not change the
    result, and the result is also what the canonical encoding of that
    value decodes to. *)
Theorem C6_bigIntFromBytes_positional_sum (bs : Uint8Array) :
  (throws (fst (bigIntFromBytes bs)) <-> bs = [])
  /\ (bs <> [] -> fst (bigIntFromBytes bs) = Return (be_sum bs))
  /\ (bs <> [] ->
      forall zeros,
        fst (bigIntFromBytes (repeat Byte.x00 zeros ++ bs)) = fst (bigIntFromBytes bs))
  /\ (bs <> [] ->
      canonical (bigIntBytes (be_sum bs))
      /\ fst (bigIntFromBytes (bigIntBytes (be_sum bs))) = fst (bigIntFromBytes bs)).
Proof.
  split; [| split; [| split]].
  - split.
    + intros (message & Hthrow). destruct bs as [| b bs]; [reflexivity |].
      rewrite bigIntFromBytes_spec in Hthrow by discriminate. discriminate.
    + intros ->. eexists. reflexivity.
  - intros Hne. rewrite bigIntFromBytes_spec by exact Hne. reflexivity.
  - intros Hne zeros.
    rewrite !bigIntFromBytes_spec;
      [| exact Hne | destruct zeros; [exact Hne | discriminate]].
    cbn [fst]. rewrite be_sum_leading_zeros. reflexivity.
  - intros Hne. pose proof (be_sum_bound bs) as Hb. split.
    + apply bigIntBytes_canonical.
    + rewrite decode_bigIntBytes, bigIntFromBytes_spec by exact Hne.
      cbn [fst]. f_equal. lia.
Qed.

(** ** The dynamic buffer *)

Section Buffer.

Import DynamicBuffer.

Lemma set_spec (a src : Uint8Array) (off : nat) :
  (off + Datatypes.length src <= Datatypes.length a)%nat ->
  exists a',
    set a src off = Some a'
    /\ Datatypes.length a' = Datatypes.length a
    /\ firstn (off + Datatypes.length src) a' = firstn off a ++ src.
Proof.
  intros Hfit. unfold set.
  replace (Datatypes.length a <? off + Datatypes.length src)%nat with false
    by (symmetry; apply Nat.ltb_ge; exact Hfit).
  eexists. split; [reflexivity |]. split.
  - rewrite !length_app, length_firstn, length_skipn. lia.
  - rewrite app_assoc.
    assert (Hl : Datatypes.length (firstn off a ++ src)
                 = (off + Datatypes.length src)%nat)
      by (rewrite length_app, length_firstn; lia).
    rewrite <- Hl at 1. rewrite firstn_app, firstn_all, Nat.sub_diag.
    cbn [firstn]. apply app_nil_r.
Qed.

(** The growth loop ends at a capacity that holds what is needed and is
    not below the one it started from. *)
Lemma grow_spec (needed cap : nat) :
  (needed <= grow needed cap)%nat /\ (cap <= grow needed cap)%nat.
Proof.
  funelim (grow needed cap).
  - destruct H as (Hn & Hc). split; [exact Hn |].
    destruct (Nat.eqb_spec capacity0 0); lia.
  - lia.
Qed.

Lemma constructor_represents (cap : nat) : represents (constructor cap).
Proof. split; cbn; [lia | apply repeat_length]. Qed.

Lemma write_spec_buffer (chunk : Uint8Array) (this : t) :
  represents this ->
  exists this',
    write chunk this = (Return tt, this')
    /\ represents this'
    /\ length this' = (length this + Datatypes.length chunk)%nat
    /\ bytes this' = bytes this ++ chunk
    /\ capacity this'
       = (if (length this + Datatypes.length chunk <=? capacity this)%nat
          then capacity this
          else grow (length this + Datatypes.length chunk) (capacity this)).
Proof.
  intros (Hlen & Hstore). unfold write.
  unfold bind at 1, get at 1. cbv beta iota.
  destruct (Nat.leb_spec (length this + Datatypes.length chunk) (capacity this))
    as [Hfit | Hgrow].
  - (* copy in place *)
    destruct (set_spec (value this) chunk (length this)) as (v & Hset & Hv & Hpre);
      [lia |].
    unfold typed_set. rewrite Hset.
    unfold bind, ret, put_value, put_length. cbn.
    eexists. split; [reflexivity |]. unfold represents, bytes, slice0. cbn.
    repeat split; try lia. exact Hpre.
  - (* grow, then copy into the new store *)
    pose proof (grow_spec (length this + Datatypes.length chunk) (capacity this))
      as (Hneed & _).
    set (c := grow (length this + Datatypes.length chunk) (capacity this)) in *.
    unfold bind at 1, put_capacity at 1. cbv beta iota.
    unfold bind at 1, get at 1. cbv beta iota. cbn [value capacity length].
    assert (Hold : Datatypes.length (subarray0 (value this) (length this))
                   = length this)
      by (unfold subarray0; rewrite length_firstn; lia).
    destruct (set_spec (new_Uint8Array c) (subarray0 (value this) (length this)) 0)
      as (v1 & Hset1 & Hv1 & Hpre1);
      [unfold new_Uint8Array; rewrite repeat_length; lia |].
    unfold typed_set at 1. rewrite Hset1.
    unfold bind at 1, ret at 1. cbv beta iota.
    unfold new_Uint8Array in Hv1. rewrite repeat_length in Hv1.
    destruct (set_spec v1 chunk (length this)) as (v2 & Hset2 & Hv2 & Hpre2); [lia |].
    unfold typed_set. rewrite Hset2.
    unfold bind, ret, put_value, put_length. cbn.
    eexists. split; [reflexivity |]. unfold represents, bytes, slice0. cbn.
    repeat split; try lia.
    rewrite Hpre2. f_equal.
    rewrite Hold in Hpre1. cbn [Nat.add firstn app] in Hpre1. exact Hpre1.
Qed.

Lemma assign_spec (a : Uint8Array) (i : nat) (x : Z) :
  (i < Datatypes.length a)%nat ->
  Datatypes.length (assign a i x) = Datatypes.length a
  /\ firstn (i + 1) (assign a i x) = firstn i a ++ [byte.of_Z x]
  /\ nth i (assign a i x) Byte.x00 = byte.of_Z x.
Proof.
  intros Hi. unfold assign.
  replace (i <? Datatypes.length a)%nat with true
    by (symmetry; apply Nat.ltb_lt; exact Hi).
  assert (Hl : Datatypes.length (firstn i a) = i) by (rewrite length_firstn; lia).
  repeat split.
  - rewrite length_app. cbn [Datatypes.length]. rewrite Hl, length_skipn. lia.
  - change (firstn i a ++ byte.of_Z x :: skipn (S i) a)
      with (firstn i a ++ [byte.of_Z x] ++ skipn (S i) a).
    rewrite app_assoc.
    assert (Hl' : Datatypes.length (firstn i a ++ [byte.of_Z x]) = (i + 1)%nat)
      by (rewrite length_app, Hl; reflexivity).
    rewrite <- Hl' at 1. rewrite firstn_app, firstn_all, Nat.sub_diag.
    cbn [firstn]. apply app_nil_r.
  - rewrite app_nth2 by lia. rewrite Hl, Nat.sub_diag. reflexivity.
Qed.

Lemma doubled_capacity (cap : nat) :
  (if (cap =? 0)%nat then 1%nat else (cap * 2)%nat) = Nat.max 1 (2 * cap).
Proof. destruct (Nat.eqb_spec cap 0); lia. Qed.

(** [writeByte] needs only [length <= capacity] to return, to count the
    byte and to keep the counters in order. *)
Lemma writeByte_counters (byte : Z) (this : t) :
  (length this <= capacity this)%nat ->
  exists this',
    writeByte byte this = (Return tt, this')
    /\ length this' = (length this + 1)%nat
    /\ capacity this'
       = (if (length this + 1 <=? capacity this)%nat
          then capacity this
          else Nat.max 1 (2 * capacity this))
    /\ (length this' <= capacity this')%nat.
Proof.
  intros Hlen. unfold writeByte.
  unfold bind at 1, get at 1. cbv beta iota.
  destruct (Nat.leb_spec (length this + 1) (capacity this)) as [Hfit | Hgrow].
  - unfold bind, put_value, put_length. cbn [length capacity value].
    eexists. split; [reflexivity |]. cbn [length capacity value]. repeat split; lia.
  - unfold bind at 1, put_capacity at 1. cbv beta iota.
    unfold bind at 1, get at 1. cbv beta iota. cbn [value capacity length].
    rewrite doubled_capacity.
    destruct (set_spec (new_Uint8Array (Nat.max 1 (2 * capacity this)))
                (subarray0 (value this) (length this)) 0)
      as (v1 & Hset1 & _);
      [unfold new_Uint8Array, subarray0; rewrite repeat_length, length_firstn; lia |].
    unfold typed_set. rewrite Hset1.
    unfold bind, ret, put_value, put_length. cbn [length capacity value].
    eexists. split; [reflexivity |]. cbn [length capacity value]. repeat split; lia.
Qed.

(** On a buffer whose store has [capacity] bytes the byte lands at index
    [length] and extends the logical content. *)
Lemma writeByte_spec (byte : Z) (this : t) :
  represents this ->
  exists this',
    writeByte byte this = (Return tt, this')
    /\ represents this'
    /\ length this' = (length this + 1)%nat
    /\ nth (length this) (value this') Byte.x00 = byte.of_Z byte
    /\ bytes this' = bytes this ++ [byte.of_Z byte].
Proof.
  intros (Hlen & Hstore). unfold writeByte.
  unfold bind at 1, get at 1. cbv beta iota.
  destruct (Nat.leb_spec (length this + 1) (capacity this)) as [Hfit | Hgrow].
  - destruct (assign_spec (value this) (length this) byte) as (Ha & Hpre & Hnth);
      [lia |].
    unfold bind, put_value, put_length. cbn [length capacity value].
    eexists. split; [reflexivity |]. unfold represents, bytes, slice0. cbn [length capacity value].
    repeat split; try lia; assumption.
  - unfold bind at 1, put_capacity at 1. cbv beta iota.
    unfold bind at 1, get at 1. cbv beta iota. cbn [value capacity length].
    rewrite doubled_capacity.
    set (c := Nat.max 1 (2 * capacity this)).
    assert (Hc : (capacity this < c)%nat) by (unfold c; lia). clearbody c.
    assert (Hold : Datatypes.length (subarray0 (value this) (length this))
                   = length this)
      by (unfold subarray0; rewrite length_firstn; lia).
    destruct (set_spec (new_Uint8Array c) (subarray0 (value this) (length this)) 0)
      as (v1 & Hset1 & Hv1 & Hpre1);
      [unfold new_Uint8Array; rewrite repeat_length; lia |].
    unfold typed_set. rewrite Hset1.
    unfold new_Uint8Array in Hv1. rewrite repeat_length in Hv1.
    destruct (assign_spec v1 (length this) byte) as (Ha & Hpre & Hnth); [lia |].
    unfold bind, ret, put_value, put_length. cbn [length capacity value].
    eexists. split; [reflexivity |]. unfold represents, bytes, slice0. cbn [length capacity value].
    repeat split; try lia; try assumption.
    rewrite Hpre. f_equal.
    rewrite Hold in Hpre1. cbn [Nat.add firstn app] in Hpre1.
    rewrite <- (firstn_all (subarray0 (value this) (length this))), Hold in Hpre1.
    unfold subarray0 in Hpre1. rewrite firstn_firstn, Nat.min_id in Hpre1.
    exact Hpre1.
Qed.

Lemma readInto_spec (this : t) (target : Uint8Array) :
  represents this ->
  (Datatypes.length target < length this)%nat
  /\ readInto this target = (Throw "Not enough space", target)
  \/ (length this <= Datatypes.length target)%nat
     /\ readInto this target
        = (Return tt, bytes this ++ skipn (length this) target).
Proof.
  intros (Hlen & Hstore).
  destruct (Nat.ltb_spec (Datatypes.length target) (length this)) as [Hshort | Hfits].
  - left. split; [exact Hshort |].
    unfold readInto, bind, arrayLength.
    replace (Datatypes.length target <? length this)%nat with true
      by (symmetry; apply Nat.ltb_lt; exact Hshort).
    reflexivity.
  - right. split; [exact Hfits |].
    assert (Hold : Datatypes.length (subarray0 (value this) (length this))
                   = length this)
      by (unfold subarray0; rewrite length_firstn; lia).
    unfold readInto, bind, arrayLength, set. rewrite Hold. cbn [Nat.add firstn app].
    repeat match goal with
           | |- context [(?a <? ?b)%nat] =>
               destruct (Nat.ltb_spec a b); [exfalso; lia |]
           end.
    reflexivity.
Qed.

End Buffer.

Section BufferClaims.

Import DynamicBuffer.

Lemma perform_spec (c : call) (this : t) :
  represents this ->
  exists this',
    perform c this = (Return tt, this')
    /\ represents this'
    /\ length this' = (length this + Datatypes.length (chunk_of c))%nat
    /\ bytes this' = bytes this ++ chunk_of c.
Proof.
  intros Hrep. destruct c as [chunk | byte]; cbn [perform chunk_of].
  - destruct (write_spec_buffer chunk this Hrep)
      as (this' & Hrun & Hrep' & Hlen & Hbytes & _).
    exists this'. auto.
  - destruct (writeByte_spec byte this Hrep)
      as (this' & Hrun & Hrep' & Hlen & _ & Hbytes).
    exists this'. auto.
Qed.

Lemma perform_all_spec (calls : list call) :
  forall this,
    represents this ->
    exists this',
      perform_all calls this = (Return tt, this')
      /\ represents this'
      /\ length this' = (length this + Datatypes.length (chunks_of calls))%nat
      /\ bytes this' = bytes this ++ chunks_of calls.
Proof.
  induction calls as [| c rest IH]; intros this Hrep.
  - exists this. cbn. rewrite app_nil_r. repeat split; try apply Hrep; lia.
  - destruct (perform_spec c this Hrep) as (mid & Hrun & Hrep' & Hlen & Hbytes).
    destruct (IH mid Hrep') as (this' & Hrun' & Hrep'' & Hlen' & Hbytes').
    exists this'. cbn [perform_all]. unfold bind. rewrite Hrun, Hrun'.
    unfold chunks_of in *. cbn [map concat].
    rewrite length_app, app_assoc, <- Hbytes.
    repeat split; try apply Hrep''; [lia | exact Hbytes'].
Qed.

End BufferClaims.

Section BufferFurther.

Import DynamicBuffer.

Lemma grow_fits (needed cap : nat) : (needed <= cap)%nat -> grow needed cap = cap.
Proof.
  intros Hfit. funelim (grow needed cap); [lia | reflexivity].
Qed.

Lemma grow_step (needed cap : nat) :
  (cap < needed)%nat ->
  grow needed cap = grow needed (if (cap =? 0)%nat then 1%nat else (cap * 2)%nat).
Proof.
  intros Hgrow. funelim (grow needed cap); [reflexivity | lia].
Qed.

(** What the loop computes whether or not the first test passes. *)
Lemma grow_or_keep (needed cap : nat) :
  (if (needed <=? cap)%nat then cap else grow needed cap) = grow needed cap.
Proof.
  destruct (Nat.leb_spec needed cap); [symmetry; apply grow_fits; lia | reflexivity].
Qed.

(** A growing loop stops below twice what is needed. *)
Lemma grow_upper (needed cap : nat) :
  (cap < needed)%nat -> (grow needed cap < 2 * needed)%nat.
Proof.
  funelim (grow needed cap); intros Hgrow; [| lia].
  destruct (Nat.ltb_spec (if (capacity0 =? 0)%nat then 1%nat else (capacity0 * 2)%nat)
              needed) as [Hmore | Hdone].
  - apply H. exact Hmore.
  - rewrite grow_fits by exact Hdone.
    destruct (Nat.eqb_spec capacity0 0); lia.
Qed.

(** From a positive capacity the loop multiplies by a power of two. *)
Lemma grow_power (needed cap : nat) :
  (0 < cap)%nat -> exists j, grow needed cap = (cap * 2 ^ j)%nat.
Proof.
  funelim (grow needed cap); intros Hpos.
  - destruct (Nat.eqb_spec capacity0 0) as [Hz | Hnz]; [lia |].
    destruct H as (j & Hj); [lia |].
    exists (S j). rewrite Hj. rewrite Nat.pow_succ_r'. lia.
  - exists 0%nat. cbn. lia.
Qed.

Lemma grow_power_any (needed cap : nat) :
  exists j, grow needed cap = (Nat.max 1 cap * 2 ^ j)%nat \/ grow needed cap = 0%nat.
Proof.
  destruct (Nat.eq_dec cap 0) as [-> | Hpos].
  - destruct (Nat.eq_dec needed 0) as [-> | Hneed].
    + exists 0%nat. right. apply grow_fits. lia.
    + rewrite grow_step by lia. cbn [Nat.eqb].
      destruct (grow_power needed 1) as (j & Hj); [lia |].
      exists j. left. rewrite Hj. reflexivity.
  - destruct (grow_power needed cap) as (j & Hj); [lia |].
    exists j. left. rewrite Hj. f_equal. lia.
Qed.

(** Growing for a smaller need first does not change where the loop
    ends. *)
Lemma grow_grow (n1 n2 cap : nat) :
  (n1 <= n2)%nat -> grow n2 (grow n1 cap) = grow n2 cap.
Proof.
  funelim (grow n1 cap); intros Hle.
  - rewrite H by exact Hle. symmetry. apply grow_step. lia.
  - reflexivity.
Qed.

Lemma clear_spec (this : t) :
  represents this ->
  exists this',
    clear this = (Return tt, this')
    /\ represents this'
    /\ length this' = 0%nat
    /\ capacity this' = capacity this
    /\ bytes this' = [].
Proof.
  intros (Hle & Hstore). eexists. split; [reflexivity |].
  unfold represents, bytes, slice0. cbn. repeat split; [lia | exact Hstore].
Qed.

Lemma write_capacity (chunk : Uint8Array) (this this' : t) :
  represents this ->
  write chunk this = (Return tt, this') ->
  capacity this' = grow (length this + Datatypes.length chunk) (capacity this).
Proof.
  intros Hrep Hrun.
  destruct (write_spec_buffer chunk this Hrep) as (s & Hrun' & _ & _ & _ & Hcap).
  rewrite Hrun in Hrun'. injection Hrun' as <-.
  rewrite Hcap. apply grow_or_keep.
Qed.

(** The doubling chain the loop walks: it stops at the first capacity of
    the chain that holds what is needed. *)
Lemma grow_chain (needed cap : nat) :
  exists j,
    grow needed cap = Nat.iter j doubled cap
    /\ forall i, (i < j)%nat -> (Nat.iter i doubled cap < needed)%nat.
Proof.
  funelim (grow needed cap).
  - destruct H as (j & Hj & Hbelow). exists (S j).
    rewrite Nat.iter_succ_r. split; [exact Hj |].
    intros i Hi. destruct i as [| i]; [cbn; lia |].
    rewrite Nat.iter_succ_r. apply Hbelow. lia.
  - exists 0%nat. split; [reflexivity | intros i Hi; lia].
Qed.

(** A write that has to grow needs no assumption on the old store: the
    new store is allocated with the new capacity. *)
Lemma write_grows (chunk : Uint8Array) (this : t) :
  (capacity this < length this + Datatypes.length chunk)%nat ->
  exists this',
    write chunk this = (Return tt, this')
    /\ length this' = (length this + Datatypes.length chunk)%nat
    /\ capacity this' = grow (length this + Datatypes.length chunk) (capacity this)
    /\ Datatypes.length (value this') = capacity this'.
Proof.
  intros Hgrow. unfold write.
  unfold bind at 1, get at 1. cbv beta iota.
  replace (length this + Datatypes.length chunk <=? capacity this)%nat with false
    by (symmetry; apply Nat.leb_gt; exact Hgrow).
  pose proof (grow_spec (length this + Datatypes.length chunk) (capacity this))
    as (Hneed & _).
  set (c := grow (length this + Datatypes.length chunk) (capacity this)) in *.
  unfold bind at 1, put_capacity at 1. cbv beta iota.
  unfold bind at 1, get at 1. cbv beta iota. cbn [value capacity length].
  assert (Hold : (Datatypes.length (subarray0 (value this) (length this))
                  <= length this)%nat)
    by (unfold subarray0; rewrite length_firstn; lia).
  destruct (set_spec (new_Uint8Array c) (subarray0 (value this) (length this)) 0)
    as (v1 & Hset1 & Hv1 & _);
    [unfold new_Uint8Array; rewrite repeat_length; lia |].
  unfold typed_set at 1. rewrite Hset1.
  unfold bind at 1, ret at 1. cbv beta iota.
  unfold new_Uint8Array in Hv1. rewrite repeat_length in Hv1.
  destruct (set_spec v1 chunk (length this)) as (v2 & Hset2 & Hv2 & _); [lia |].
  unfold typed_set. rewrite Hset2.
  unfold bind, ret, put_value, put_length. cbn [value capacity length].
  eexists. split; [reflexivity |]. cbn [value capacity length].
  repeat split; lia.
Qed.

End BufferFurther.

(** C8 (growth scenario): a buffer constructed with capacity 0 that is
    written a 1-byte chunk, then a 100-byte chunk, then a 27-byte chunk
    has capacity 1 and length 1 after the first write, capacity 128 and
    length 101 after the second, and length 128 and capacity 128 at the
    end, with [bytes()] the three chunks in order.  The capacities are
    those of the growth policy: a write that does not fit walks the chain
    capacity, doubled capacity, ... (0 counting as going to 1) and stops
    at the first member that holds the pending content. *)
Theorem C8_growth_scenario (c1 c100 c27 : Uint8Array) :
  Datatypes.length c1 = 1%nat ->
  Datatypes.length c100 = 100%nat ->
  Datatypes.length c27 = 27%nat ->
  (exists s1 s2 s3,
     DynamicBuffer.write c1 (DynamicBuffer.constructor 0) = (Return tt, s1)
     /\ DynamicBuffer.length s1 = 1%nat
     /\ DynamicBuffer.capacity s1 = 1%nat
     /\ DynamicBuffer.write c100 s1 = (Return tt, s2)
     /\ DynamicBuffer.length s2 = 101%nat
     /\ DynamicBuffer.capacity s2 = 128%nat
     /\ DynamicBuffer.write c27 s2 = (Return tt, s3)
     /\ DynamicBuffer.length s3 = 128%nat
     /\ DynamicBuffer.capacity s3 = 128%nat
     /\ (DynamicBuffer.write c1 ;;; DynamicBuffer.write c100 ;;;
         DynamicBuffer.write c27) (DynamicBuffer.constructor 0)
        = (Return tt, s3)
     /\ DynamicBuffer.bytes s3 = c1 ++ c100 ++ c27)
  /\ (forall (chunk : Uint8Array) (this : DynamicBuffer.t),
        (DynamicBuffer.capacity this
         < DynamicBuffer.length this + Datatypes.length chunk)%nat ->
        exists this' j,
          DynamicBuffer.write chunk this = (Return tt, this')
          /\ DynamicBuffer.capacity this'
             = Nat.iter j doubled (DynamicBuffer.capacity this)
          /\ (DynamicBuffer.length this + Datatypes.length chunk
              <= DynamicBuffer.capacity this')%nat
          /\ forall i, (i < j)%nat ->
                       (Nat.iter i doubled (DynamicBuffer.capacity this)
                        < DynamicBuffer.length this + Datatypes.length chunk)%nat).
Proof.
  intros H1 H100 H27. split.
  - destruct (write_spec_buffer c1 _ (constructor_represents 0))
      as (b1 & Hrun1 & Hrep1 & Hlen1 & Hbytes1 & Hcap1).
    destruct (write_spec_buffer c100 b1 Hrep1)
      as (b2 & Hrun2 & Hrep2 & Hlen2 & Hbytes2 & Hcap2).
    destruct (write_spec_buffer c27 b2 Hrep2)
      as (b3 & Hrun3 & Hrep3 & Hlen3 & Hbytes3 & Hcap3).
    exists b1, b2, b3. unfold bind. rewrite Hrun1, Hrun2, Hrun3.
    rewrite H1 in *. rewrite H100 in *. rewrite H27 in *.
    cbn [DynamicBuffer.constructor DynamicBuffer.length DynamicBuffer.capacity]
      in Hlen1, Hcap1.
    change (DynamicBuffer.capacity b1 = 1%nat) in Hcap1.
    change (DynamicBuffer.length b1 = 1%nat) in Hlen1.
    rewrite Hlen1, Hcap1 in *.
    change (DynamicBuffer.capacity b2 = 128%nat) in Hcap2.
    change (DynamicBuffer.length b2 = 101%nat) in Hlen2.
    rewrite Hlen2, Hcap2 in *.
    change (DynamicBuffer.capacity b3 = 128%nat) in Hcap3.
    change (DynamicBuffer.length b3 = 128%nat) in Hlen3.
    repeat (split; [reflexivity || assumption |]).
    rewrite Hbytes3, Hbytes2, Hbytes1. cbn [DynamicBuffer.bytes DynamicBuffer.constructor
      DynamicBuffer.length DynamicBuffer.value slice0 firstn app].
    rewrite <- app_assoc. reflexivity.
  - intros chunk this Hgrow.
    destruct (write_grows chunk this Hgrow) as (this' & Hrun & _ & Hcap & _).
    destruct (grow_chain (DynamicBuffer.length this + Datatypes.length chunk)
                (DynamicBuffer.capacity this)) as (j & Hj & Hbelow).
    exists this', j. split; [exact Hrun |]. split; [rewrite Hcap; exact Hj |].
    split; [rewrite Hcap; apply grow_spec | exact Hbelow].
Qed.

Lemma C8_growth_scenario_witness :
  exists s1 s2 s3,
    DynamicBuffer.write [Byte.x01] (DynamicBuffer.constructor 0) = (Return tt, s1)
    /\ DynamicBuffer.length s1 = 1%nat
    /\ DynamicBuffer.capacity s1 = 1%nat
    /\ DynamicBuffer.write (new_Uint8Array 100) s1 = (Return tt, s2)
    /\ DynamicBuffer.length s2 = 101%nat
    /\ DynamicBuffer.capacity s2 = 128%nat
    /\ DynamicBuffer.write (new_Uint8Array 27) s2 = (Return tt, s3)
    /\ DynamicBuffer.length s3 = 128%nat
    /\ DynamicBuffer.capacity s3 = 128%nat
    /\ (DynamicBuffer.write [Byte.x01] ;;; DynamicBuffer.write (new_Uint8Array 100) ;;;
        DynamicBuffer.write (new_Uint8Array 27)) (DynamicBuffer.constructor 0)
       = (Return tt, s3)
    /\ DynamicBuffer.bytes s3
       = [Byte.x01] ++ new_Uint8Array 100 ++ new_Uint8Array 27.
Proof.
  apply (C8_growth_scenario [Byte.x01] (new_Uint8Array 100) (new_Uint8Array 27));
    reflexivity.
Defined.

(** C9 (content after a sequence of appends): on a freshly constructed
    buffer of any initial capacity, after any finite sequence of [write]
    and [writeByte] calls whose chunks total N bytes, [length] is N,
    [capacity] is at least N, and [bytes()] is the concatenation of the
    chunks in call order, hence N bytes long; [readInto] throws on a
    target shorter than N and otherwise overwrites exactly the first N
    bytes of the target with that content, so neither accessor shows a
    byte of the store past index [length]. *)
Theorem C9_appended_content (cap : nat) (calls : list call) (target : Uint8Array) :
  exists this,
    perform_all calls (DynamicBuffer.constructor cap) = (Return tt, this)
    /\ DynamicBuffer.length this = Datatypes.length (chunks_of calls)
    /\ (Datatypes.length (chunks_of calls) <= DynamicBuffer.capacity this)%nat
    /\ DynamicBuffer.bytes this = chunks_of calls
    /\ Datatypes.length (DynamicBuffer.bytes this) = DynamicBuffer.length this
    /\ ((Datatypes.length target < DynamicBuffer.length this)%nat
        /\ DynamicBuffer.readInto this target = (Throw "Not enough space", target)
        \/ (DynamicBuffer.length this <= Datatypes.length target)%nat
           /\ DynamicBuffer.readInto this target
              = (Return tt,
                 chunks_of calls ++ skipn (Datatypes.length (chunks_of calls)) target)).
Proof.
  destruct (perform_all_spec calls _ (constructor_represents cap))
    as (this & Hrun & Hrep & Hlen & Hbytes).
  cbn in Hlen, Hbytes.
  exists this. split; [exact Hrun |]. split; [exact Hlen |].
  split; [destruct Hrep as (Hle & _); lia |].
  split; [exact Hbytes |].
  split; [rewrite Hbytes, Hlen; reflexivity |].
  destruct (readInto_spec this target Hrep) as [(Hshort & Hthrow) | (Hfits & Hcopy)].
  - left. split; assumption.
  - right. split; [exact Hfits |]. rewrite Hcopy, Hbytes, Hlen. reflexivity.
Qed.

(** C10, as amended (one growth step is enough for one byte): from any
    state with [length <= capacity], a single [writeByte] returns
    normally, raises [length] by one, leaves [capacity] as it was when the
    byte fitted and sets it to max(1, 2 * capacity) otherwise, and keeps
    [length <= capacity]; when in addition the backing store has
    [capacity] bytes, as the constructor sets it up and every method
    keeps it, the store still has [capacity] bytes afterwards, the byte
    is stored at index [length] and [bytes()] grows by exactly that
    byte.  Without the condition on the store the append can be lost. *)
Theorem C10_writeByte_one_growth_step (byte : Z) (this : DynamicBuffer.t) :
  (DynamicBuffer.length this <= DynamicBuffer.capacity this)%nat ->
  exists this',
    DynamicBuffer.writeByte byte this = (Return tt, this')
    /\ DynamicBuffer.length this' = (DynamicBuffer.length this + 1)%nat
    /\ DynamicBuffer.capacity this'
       = (if (DynamicBuffer.length this + 1 <=? DynamicBuffer.capacity this)%nat
          then DynamicBuffer.capacity this
          else Nat.max 1 (2 * DynamicBuffer.capacity this))
    /\ (DynamicBuffer.length this' <= DynamicBuffer.capacity this')%nat
    /\ (Datatypes.length (DynamicBuffer.value this) = DynamicBuffer.capacity this ->
        Datatypes.length (DynamicBuffer.value this') = DynamicBuffer.capacity this'
        /\ nth (DynamicBuffer.length this) (DynamicBuffer.value this') Byte.x00
           = byte.of_Z byte
        /\ DynamicBuffer.bytes this'
           = DynamicBuffer.bytes this ++ [byte.of_Z byte]).
Proof.
  intros Hle.
  destruct (writeByte_counters byte this Hle) as (this' & Hrun & Hlen & Hcap & Hle').
  exists this'. repeat (split; [assumption |]).
  intros Hstore.
  destruct (writeByte_spec byte this (conj Hle Hstore))
    as (this'' & Hrun' & (_ & Hstore') & _ & Hnth & Hbytes).
  rewrite Hrun in Hrun'. injection Hrun' as <-.
  repeat split; assumption.
Qed.

Lemma C10_writeByte_witness :
  let this := {| DynamicBuffer.value := [Byte.x07];
                 DynamicBuffer.capacity := 1;
                 DynamicBuffer.length := 1 |} in
  (DynamicBuffer.length this <= DynamicBuffer.capacity this)%nat
  /\ exists this',
       DynamicBuffer.writeByte 9 this = (Return tt, this')
       /\ DynamicBuffer.length this' = 2%nat
       /\ DynamicBuffer.capacity this' = 2%nat
       /\ DynamicBuffer.bytes this' = [Byte.x07; Byte.x09].
Proof.
  cbv zeta. split; [cbn; lia |].
  destruct (C10_writeByte_one_growth_step 9
              {| DynamicBuffer.value := [Byte.x07];
                 DynamicBuffer.capacity := 1;
                 DynamicBuffer.length := 1 |})
    as (this' & Hrun & Hlen & Hcap & _ & Hstore); [cbn; lia |].
  exists this'. split; [exact Hrun |]. split; [exact Hlen |]. split; [exact Hcap |].
  destruct Hstore as (_ & _ & Hbytes); [reflexivity | exact Hbytes].
Defined.

(** C10 as first stated fails: with a one-byte store but [capacity] 4 and
    [length] 1 (so [length <= capacity]), [writeByte(9)] finds that the
    byte fits, stores it past the end of the store, where the store drops
    it, and only raises [length]: [bytes()] is still the old single byte
    and index [length] of the store holds nothing. *)
Lemma C10_append_lost_on_short_store :
  let this := {| DynamicBuffer.value := [Byte.x07];
                 DynamicBuffer.capacity := 4;
                 DynamicBuffer.length := 1 |} in
  (DynamicBuffer.length this <= DynamicBuffer.capacity this)%nat
  /\ exists this',
       DynamicBuffer.writeByte 9 this = (Return tt, this')
       /\ DynamicBuffer.length this' = 2%nat
       /\ nth_error (DynamicBuffer.value this') (DynamicBuffer.length this) = None
       /\ DynamicBuffer.bytes this' = [Byte.x07]
       /\ DynamicBuffer.bytes this' <> DynamicBuffer.bytes this ++ [byte.of_Z 9].
Proof.
  cbv zeta. split; [cbn; lia |].
  eexists. split; [vm_compute; reflexivity |].
  split; [reflexivity |]. split; [reflexivity |]. split; [reflexivity |].
  vm_compute. discriminate.
Qed.

(** * Further properties of the code *)

(** ** Byte sequence utilities *)

Section ByteUtilities.

Lemma compareBytes_loop_spec (a b : Uint8Array) :
  forall count i,
    compareBytes_loop count i a b = true
    <-> forall j, (i <= j < i + count)%nat -> index a j = index b j.
Proof.
  induction count as [| c IH]; intros i; cbn [compareBytes_loop].
  - split; [intros _ j Hj; lia | reflexivity].
  - destruct (Z.eqb_spec (index a i) (index b i)) as [Heq | Hne]; cbn [negb].
    + rewrite IH. split.
      * intros H j Hj. destruct (Nat.eq_dec j i) as [-> | Hji]; [exact Heq |].
        apply H. lia.
      * intros H j Hj. apply H. lia.
    + split; [discriminate |]. intros H. exfalso. apply Hne, H. lia.
Qed.

Lemma index_inj (a b : Uint8Array) :
  length a = length b ->
  (forall j, (j < length b)%nat -> index a j = index b j) ->
  a = b.
Proof.
  intros Hlen Hall. apply (nth_ext a b Byte.x00 Byte.x00 Hlen).
  intros n Hn. apply byte.unsigned_inj. apply Hall. lia.
Qed.

End ByteUtilities.

(** X1 (compareBytes decides equality): [compareBytes(a, b)] returns
    [true] exactly when the two arrays have the same length and the same
    byte at every index, that is, when they are the same byte sequence. *)
Theorem X1_compareBytes_iff_equal (a b : Uint8Array) :
  compareBytes a b = true <-> a = b.
Proof.
  unfold compareBytes.
  destruct (Nat.eqb_spec (length a) (length b)) as [Hlen | Hlen]; cbn [negb].
  - rewrite compareBytes_loop_spec. split.
    + intros H. apply index_inj; [exact Hlen |].
      intros j Hj. apply H. lia.
    + intros -> j _. reflexivity.
  - split; [discriminate |]. intros ->. contradiction.
Qed.

(** X2 (concatenateBytes): [concatenateBytes(a, b)] never throws and
    returns the bytes of [a] followed by the bytes of [b], so the result
    has [a.byteLength + b.byteLength] bytes. *)
Theorem X2_concatenateBytes_appends (a b : Uint8Array) :
  concatenateBytes a b = Return (a ++ b)
  /\ length (a ++ b) = (length a + length b)%nat.
Proof.
  split; [| apply length_app].
  unfold concatenateBytes, set, new_Uint8Array. cbv zeta.
  rewrite repeat_length.
  replace (length a + length b <? 0 + length a)%nat with false
    by (symmetry; apply Nat.ltb_ge; lia).
  cbn [Nat.add firstn app].
  assert (Hlen : length (a ++ skipn (length a) (repeat Byte.x00 (length a + length b)))
                 = (length a + length b)%nat).
  { rewrite length_app, length_skipn, repeat_length. lia. }
  rewrite Hlen.
  replace (length a + length b <? length a + length b)%nat with false
    by (symmetry; apply Nat.ltb_ge; lia).
  f_equal.
  rewrite firstn_app, firstn_all, Nat.sub_diag. cbn [firstn].
  rewrite app_nil_r. f_equal.
  rewrite skipn_all2 by (rewrite Hlen; lia).
  apply app_nil_r.
Qed.

(** ** The codec on whole arrays: frames, positions, the other round trip *)

Section CodecFrames.

(** Index by index, what an array looks like after [n] bytes were
    replaced from index [k] on. *)
Lemma nth_error_splice (t enc : Uint8Array) (k n i : nat) :
  (k + n <= length t)%nat -> length enc = n ->
  nth_error (firstn k t ++ enc ++ skipn (k + n) t) i
  = if (i <? k)%nat then nth_error t i
    else if (i <? k + n)%nat then nth_error enc (i - k)
         else nth_error t i.
Proof.
  intros Hlen Henc.
  assert (Hk : length (firstn k t) = k) by (rewrite length_firstn; lia).
  destruct (Nat.ltb_spec i k) as [Hlo | Hge].
  - rewrite nth_error_app1 by lia. rewrite nth_error_firstn.
    replace (i <? k)%nat with true by (symmetry; apply Nat.ltb_lt; exact Hlo).
    reflexivity.
  - rewrite nth_error_app2 by lia. rewrite Hk.
    destruct (Nat.ltb_spec i (k + n)) as [Hmid | Hhi].
    + apply nth_error_app1. lia.
    + rewrite nth_error_app2 by lia. rewrite nth_error_skipn. f_equal. lia.
Qed.

Lemma length_splice (t enc : Uint8Array) (k n : nat) :
  (k + n <= length t)%nat -> length enc = n ->
  length (firstn k t ++ enc ++ skipn (k + n) t) = length t.
Proof.
  intros Hlen Henc. rewrite !length_app, length_firstn, length_skipn. lia.
Qed.

Lemma nth_error_span (l : Uint8Array) (j m i : nat) :
  nth_error (span l j m) i = if (i <? m)%nat then nth_error l (j + i) else None.
Proof.
  unfold span. rewrite nth_error_firstn, nth_error_skipn. reflexivity.
Qed.

Lemma span_splice_disjoint (t enc : Uint8Array) (k n j m : nat) :
  (k + n <= length t)%nat -> length enc = n ->
  disjoint_spans k n j m ->
  span (firstn k t ++ enc ++ skipn (k + n) t) j m = span t j m.
Proof.
  intros Hlen Henc Hdis. apply nth_error_ext. intros i.
  rewrite !nth_error_span.
  destruct (Nat.ltb_spec i m) as [Hi | Hi]; [| reflexivity].
  rewrite nth_error_splice by assumption.
  destruct Hdis as [Hafter | Hbefore].
  - replace (j + i <? k)%nat with false by (symmetry; apply Nat.ltb_ge; lia).
    replace (j + i <? k + n)%nat with false by (symmetry; apply Nat.ltb_ge; lia).
    reflexivity.
  - replace (j + i <? k)%nat with true by (symmetry; apply Nat.ltb_lt; lia).
    reflexivity.
Qed.

Lemma splice_splice (t enc1 enc2 : Uint8Array) (k n : nat) :
  (k + n <= length t)%nat -> length enc1 = n -> length enc2 = n ->
  firstn k (firstn k t ++ enc1 ++ skipn (k + n) t) ++ enc2
    ++ skipn (k + n) (firstn k t ++ enc1 ++ skipn (k + n) t)
  = firstn k t ++ enc2 ++ skipn (k + n) t.
Proof.
  intros Hlen H1 H2. apply nth_error_ext. intros i.
  rewrite nth_error_splice
    by (rewrite ?length_splice by assumption; assumption).
  rewrite (nth_error_splice t enc2) by assumption.
  rewrite (nth_error_splice t enc1) by assumption.
  destruct (Nat.ltb_spec i k); [reflexivity |].
  destruct (Nat.ltb_spec i (k + n)); reflexivity.
Qed.

Lemma decoding_bound (e : endianness) (bs : list byte) :
  0 <= decoding e bs < 2 ^ (8 * Z.of_nat (length bs)).
Proof.
  destruct e; unfold decoding.
  - rewrite <- (length_rev bs). apply le_combine_bound.
  - apply le_combine_bound.
Qed.

Lemma encoding_decoding (e : endianness) (w : width) (bs : list byte) :
  length bs = byte_count w -> encoding e w (decoding e bs) = bs.
Proof.
  intros Hlen. destruct e; unfold encoding, decoding; rewrite <- Hlen.
  - rewrite <- (length_rev bs). rewrite split_le_combine. apply rev_involutive.
  - apply split_le_combine.
Qed.

Lemma decoding_in_range (e : endianness) (w : width) (bs : list byte) :
  length bs = byte_count w -> 0 <= decoding e bs <= 2 ^ bit_count w - 1.
Proof.
  intros Hlen. pose proof (decoding_bound e bs) as Hb. rewrite Hlen in Hb.
  destruct w; cbn in Hb |- *; lia.
Qed.

Lemma length_span (a : Uint8Array) (k n : nat) :
  (k + n <= length a)%nat -> length (span a k n) = n.
Proof. intros H. apply (array_split a k n H). Qed.

(** Writing the unsigned value of a span back over the span restores the
    array. *)
Lemma write_decoding (e : endianness) (w : width) (k : nat) (data : Uint8Array) :
  (k + byte_count w <= length data)%nat ->
  write (instance e) w (decoding e (span data k (byte_count w))) k data
  = (Return tt, data).
Proof.
  intros Hlen.
  rewrite write_spec
    by (exact Hlen || (apply decoding_in_range, length_span; exact Hlen)).
  rewrite encoding_decoding by (apply length_span; exact Hlen).
  destruct (array_split data k (byte_count w) Hlen) as (Heq & _).
  rewrite <- Heq. reflexivity.
Qed.

End CodecFrames.

(** X3 (frame of a successful put-uint): a put-uint that succeeds keeps
    the length of the target and leaves every byte outside
    [offset, offset + w/8) as it was. *)
Theorem X3_put_uint_frame
        (e : endianness) (w : width) (v : Z) (k : nat) (target : Uint8Array) :
  (k + byte_count w <= length target)%nat ->
  0 <= v <= 2 ^ bit_count w - 1 ->
  let written := snd (write (instance e) w v k target) in
  length written = length target
  /\ forall i, (i < k \/ k + byte_count w <= i)%nat ->
               nth_error written i = nth_error target i.
Proof.
  intros Hlen Hv. cbv zeta. rewrite write_spec by assumption. cbn [snd]. split.
  - apply length_splice; [exact Hlen | apply length_encoding].
  - intros i Hi. rewrite nth_error_splice by (exact Hlen || apply length_encoding).
    destruct (Nat.ltb_spec i k); [reflexivity |].
    replace (i <? k + byte_count w)%nat with false
      by (symmetry; apply Nat.ltb_ge; lia).
    reflexivity.
Qed.

Lemma X3_put_uint_frame_witness :
  let written := snd (write (instance Little) W16 513 1
                        [Byte.xaa; Byte.xbb; Byte.xcc; Byte.xdd]) in
  length written = 4%nat
  /\ forall i, (i < 1 \/ 1 + byte_count W16 <= i)%nat ->
               nth_error written i
               = nth_error [Byte.xaa; Byte.xbb; Byte.xcc; Byte.xdd] i.
Proof.
  apply (X3_put_uint_frame Little W16 513 1 [Byte.xaa; Byte.xbb; Byte.xcc; Byte.xdd]);
    cbn; lia.
Defined.

(** X4 (byte-order arithmetic of put-uint): after a successful put-uint
    of [v], byte [i] of the written span holds bits [8(n-1-i), 8(n-i)) of
    [v] under bigEndian and bits [8i, 8i+8) under littleEndian, where
    [n = w/8]. *)
Theorem X4_put_uint_byte_positions
        (e : endianness) (w : width) (v : Z) (k i : nat) (target : Uint8Array) :
  (k + byte_count w <= length target)%nat ->
  0 <= v <= 2 ^ bit_count w - 1 ->
  (i < byte_count w)%nat ->
  nth_error (snd (write (instance e) w v k target)) (k + i)
  = Some (byte.of_Z
            (Z.shiftr v
               (8 * Z.of_nat (match e with
                              | Big => byte_count w - 1 - i
                              | Little => i
                              end)))).
Proof.
  intros Hlen Hv Hi. rewrite write_spec by assumption. cbn [snd].
  rewrite nth_error_splice by (exact Hlen || apply length_encoding).
  replace (k + i <? k)%nat with false by (symmetry; apply Nat.ltb_ge; lia).
  replace (k + i <? k + byte_count w)%nat with true
    by (symmetry; apply Nat.ltb_lt; lia).
  replace (k + i - k)%nat with i by lia.
  destruct e; unfold encoding.
  - rewrite nth_error_rev, length_le_split.
    replace (i <? byte_count w)%nat with true by (symmetry; apply Nat.ltb_lt; lia).
    rewrite nth_error_le_split by lia. do 3 f_equal. lia.
  - rewrite nth_error_le_split by lia. reflexivity.
Qed.

Lemma X4_put_uint_byte_positions_witness :
  nth_error (snd (write (instance Big) W32 305419896 2 (new_Uint8Array 8))) (2 + 1)
  = Some (byte.of_Z (Z.shiftr 305419896 (8 * Z.of_nat (byte_count W32 - 1 - 1)))).
Proof.
  apply (X4_put_uint_byte_positions Big W32 305419896 2 1 (new_Uint8Array 8));
    cbn; lia.
Defined.

(** X5 (read then write, widths 8, 16 and 64): the value a read-uint
    returns lies in [0, 2^w - 1], and putting it back at the same offset
    with the same byte order succeeds and leaves the array exactly as it
    was. *)
Theorem X5_read_then_write_restores
        (e : endianness) (w : width) (k : nat) (data : Uint8Array) :
  (k + byte_count w <= length data)%nat ->
  w <> W32 ->
  exists r,
    read (instance e) w k data = (Return r, data)
    /\ 0 <= r <= 2 ^ bit_count w - 1
    /\ write (instance e) w r k data = (Return tt, data).
Proof.
  intros Hlen Hw. exists (decoding e (span data k (byte_count w))).
  split; [| split].
  - rewrite read_spec by exact Hlen. destruct w; try reflexivity. congruence.
  - apply decoding_in_range, length_span. exact Hlen.
  - apply write_decoding. exact Hlen.
Qed.

Lemma X5_read_then_write_restores_witness :
  exists r,
    read (instance Big) W64 1
      [Byte.x00; Byte.xff; Byte.x01; Byte.x02; Byte.x03; Byte.x04; Byte.x05;
       Byte.x06; Byte.x07] = (Return r,
      [Byte.x00; Byte.xff; Byte.x01; Byte.x02; Byte.x03; Byte.x04; Byte.x05;
       Byte.x06; Byte.x07])
    /\ 0 <= r <= 2 ^ bit_count W64 - 1
    /\ write (instance Big) W64 r 1
         [Byte.x00; Byte.xff; Byte.x01; Byte.x02; Byte.x03; Byte.x04; Byte.x05;
          Byte.x06; Byte.x07]
       = (Return tt,
          [Byte.x00; Byte.xff; Byte.x01; Byte.x02; Byte.x03; Byte.x04; Byte.x05;
           Byte.x06; Byte.x07]).
Proof.
  apply (X5_read_then_write_restores Big W64 1); [cbn; lia | discriminate].
Defined.

Section CodecValues.

Lemma decoding_be_sum (e : endianness) (bs : list byte) :
  decoding e bs = match e with Big => be_sum bs | Little => be_sum (rev bs) end.
Proof.
  destruct e; unfold decoding; rewrite be_sum_le_combine, ?rev_involutive;
    reflexivity.
Qed.

Lemma span_whole (bs : Uint8Array) (n : nat) : length bs = n -> span bs 0 n = bs.
Proof. intros <-. unfold span. cbn [skipn]. apply firstn_all. Qed.

End CodecValues.

(** X6 (what uint32 returns): let [u] be the unsigned value of the four
    bytes at the offset (most significant first under bigEndian, least
    significant first under littleEndian).  [uint32] returns [u] when
    [u < 2^31] and the negative number [u - 2^32] otherwise, and in that
    second case [putUint32] rejects the number [uint32] returned, leaving
    the array as it was. *)
Theorem X6_uint32_returns_signed
        (e : endianness) (k : nat) (data : Uint8Array) :
  (k + 4 <= length data)%nat ->
  let bytes := span data k 4 in
  let u := match e with Big => be_sum bytes | Little => be_sum (rev bytes) end in
  0 <= u <= 2 ^ 32 - 1
  /\ read (instance e) W32 k data
     = (Return (if u <? 2 ^ 31 then u else u - 2 ^ 32), data)
  /\ (2 ^ 31 <= u ->
      throws (fst (write (instance e) W32 (u - 2 ^ 32) k data))
      /\ snd (write (instance e) W32 (u - 2 ^ 32) k data) = data).
Proof.
  intros Hlen. cbv zeta. rewrite <- decoding_be_sum.
  pose proof (decoding_in_range e W32 (span data k 4)
                (length_span data k 4 Hlen)) as Hu.
  cbn [bit_count] in Hu.
  split; [exact Hu |]. split.
  - rewrite (read_spec e W32 k data Hlen). cbn [as_returned byte_count].
    rewrite ToInt32_uint32 by lia. reflexivity.
  - intros Hhigh.
    destruct (write_out_of_range e W32
                (decoding e (span data k 4) - 2 ^ 32) k data) as (message & ->).
    + cbn [bit_count]. lia.
    + split; [exists message |]; reflexivity.
Qed.

Lemma X6_uint32_returns_signed_witness :
  read (instance Big) W32 0 [Byte.xff; Byte.x00; Byte.x00; Byte.x01]
  = (Return (4278190081 - 2 ^ 32), [Byte.xff; Byte.x00; Byte.x00; Byte.x01]).
Proof.
  destruct (X6_uint32_returns_signed Big 0 [Byte.xff; Byte.x00; Byte.x00; Byte.x01])
    as (_ & Hread & _); [cbn; lia |].
  exact Hread.
Defined.

(** X7 (writes do not disturb other spans): after a successful put-uint
    at one span, a read-uint of any width and byte order at a span that
    shares no index with it returns what it returned before the write. *)
Theorem X7_write_then_read_elsewhere
        (e1 e2 : endianness) (w1 w2 : width) (v : Z) (k1 k2 : nat)
        (target : Uint8Array) :
  (k1 + byte_count w1 <= length target)%nat ->
  0 <= v <= 2 ^ bit_count w1 - 1 ->
  (k2 + byte_count w2 <= length target)%nat ->
  disjoint_spans k1 (byte_count w1) k2 (byte_count w2) ->
  fst (read (instance e2) w2 k2 (snd (write (instance e1) w1 v k1 target)))
  = fst (read (instance e2) w2 k2 target).
Proof.
  intros Hlen1 Hv Hlen2 Hdis.
  rewrite write_spec by assumption. cbn [snd].
  rewrite read_spec
    by (rewrite length_splice by (exact Hlen1 || apply length_encoding); exact Hlen2).
  rewrite (read_spec e2 w2 k2 target Hlen2). cbn [fst].
  rewrite span_splice_disjoint
    by (exact Hlen1 || apply length_encoding || exact Hdis).
  reflexivity.
Qed.

Lemma X7_write_then_read_elsewhere_witness :
  fst (read (instance Little) W16 0
         (snd (write (instance Big) W32 4294967295 2
                 [Byte.x01; Byte.x02; Byte.x00; Byte.x00; Byte.x00; Byte.x00])))
  = fst (read (instance Little) W16 0
           [Byte.x01; Byte.x02; Byte.x00; Byte.x00; Byte.x00; Byte.x00]).
Proof.
  apply (X7_write_then_read_elsewhere Big Little W32 W16 4294967295 2 0);
    try (cbn; lia).
  right. cbn. lia.
Defined.

(** X8 (the last write wins): a successful put-uint over the span of an
    earlier put-uint of the same width leaves the array as if only the
    later one had been made, whatever the two byte orders. *)
Theorem X8_overwrite
        (e1 e2 : endianness) (w : width) (v1 v2 : Z) (k : nat)
        (target : Uint8Array) :
  (k + byte_count w <= length target)%nat ->
  0 <= v1 <= 2 ^ bit_count w - 1 ->
  0 <= v2 <= 2 ^ bit_count w - 1 ->
  write (instance e2) w v2 k (snd (write (instance e1) w v1 k target))
  = write (instance e2) w v2 k target.
Proof.
  intros Hlen Hv1 Hv2.
  rewrite (write_spec e1 w v1 k target Hlen Hv1). cbn [snd].
  rewrite write_spec
    by (rewrite ?length_splice by (exact Hlen || apply length_encoding);
        assumption).
  rewrite (write_spec e2 w v2 k target Hlen Hv2). f_equal.
  apply splice_splice; [exact Hlen | apply length_encoding | apply length_encoding].
Qed.

Lemma X8_overwrite_witness :
  write (instance Little) W16 258 1
    (snd (write (instance Big) W16 65535 1 (new_Uint8Array 4)))
  = write (instance Little) W16 258 1 (new_Uint8Array 4).
Proof.
  apply (X8_overwrite Big Little W16 65535 258 1 (new_Uint8Array 4)); cbn; lia.
Defined.

(** X9 (the two readers mirror each other): reading a span with
    bigEndian returns what littleEndian returns for the reversed span, for
    every width. *)
Theorem X9_big_endian_read_is_little_endian_of_reverse
        (w : width) (k : nat) (data : Uint8Array) :
  (k + byte_count w <= length data)%nat ->
  fst (read bigEndian w k data)
  = fst (read littleEndian w 0 (rev (span data k (byte_count w)))).
Proof.
  intros Hlen.
  change bigEndian with (instance Big). change littleEndian with (instance Little).
  assert (Hn : length (rev (span data k (byte_count w))) = byte_count w)
    by (rewrite length_rev; apply length_span; exact Hlen).
  rewrite read_spec by exact Hlen.
  rewrite read_spec by (rewrite Hn; cbn; lia).
  cbn [fst]. rewrite (span_whole _ _ Hn). reflexivity.
Qed.

Lemma X9_mirror_witness :
  fst (read bigEndian W16 1 [Byte.x00; Byte.x12; Byte.x34])
  = fst (read littleEndian W16 0 (rev (span [Byte.x00; Byte.x12; Byte.x34] 1 (byte_count W16)))).
Proof.
  apply (X9_big_endian_read_is_little_endian_of_reverse W16 1
           [Byte.x00; Byte.x12; Byte.x34]).
  cbn. lia.
Defined.

(** X10 (fixed-width and arbitrary-precision decoders agree): on an array
    of exactly w/8 bytes, for the widths 8, 16 and 64, [bigEndian.uint<w>]
    at offset 0 returns what [bigIntFromBytes] returns. *)
Theorem X10_big_endian_read_is_bigIntFromBytes (w : width) (data : Uint8Array) :
  length data = byte_count w ->
  w <> W32 ->
  fst (read bigEndian w 0 data) = fst (bigIntFromBytes data).
Proof.
  intros Hlen Hw. change bigEndian with (instance Big).
  rewrite read_spec by (rewrite Hlen; cbn; lia).
  rewrite bigIntFromBytes_spec
    by (intros ->; destruct w; discriminate).
  cbn [fst]. rewrite (span_whole _ _ Hlen).
  rewrite (decoding_be_sum Big). destruct w; try reflexivity. congruence.
Qed.

Lemma X10_decoders_agree_witness :
  fst (read bigEndian W16 0 [Byte.x01; Byte.x00])
  = fst (bigIntFromBytes [Byte.x01; Byte.x00]).
Proof.
  apply (X10_big_endian_read_is_bigIntFromBytes W16 [Byte.x01; Byte.x00]);
    [reflexivity | discriminate].
Defined.

(** ** The arbitrary-precision codec: composition, sizes, injectivity *)

Section BigIntFurther.

Lemma be_sum_app (a b : list byte) :
  be_sum (a ++ b) = be_sum a * 256 ^ Z.of_nat (length b) + be_sum b.
Proof.
  induction a as [| x a IH]; [cbn [app be_sum]; lia |].
  cbn [app be_sum]. rewrite IH, length_app, Nat2Z.inj_add.
  rewrite Z.pow_add_r by lia. ring.
Qed.

Lemma pow_256 (n : nat) : 256 ^ Z.of_nat n = 2 ^ (8 * Z.of_nat n).
Proof. change 256 with (2 ^ 8). rewrite <- Z.pow_mul_r by lia. reflexivity. Qed.

Lemma le_split_app (j : nat) :
  forall (m : nat) (z : Z),
    le_split (m + j) z = le_split m z ++ le_split j (Z.shiftr z (8 * Z.of_nat m)).
Proof.
  induction m as [| m IH]; intros z.
  - cbn [Nat.add]. rewrite Z.shiftr_0_r. reflexivity.
  - cbn [Nat.add]. rewrite !le_split_S, IH, Z.shiftr_shiftr by lia.
    replace (8 * Z.of_nat (S m)) with (8 + 8 * Z.of_nat m) by lia.
    reflexivity.
Qed.

Lemma le_split_zero (j : nat) : le_split j 0 = repeat Byte.x00 j.
Proof.
  induction j as [| j IH]; [reflexivity |].
  rewrite le_split_S, Z.shiftr_0_l, IH. reflexivity.
Qed.

Lemma le_split_padded (v : Z) (m n : nat) :
  (m <= n)%nat -> 0 <= v < 2 ^ (8 * Z.of_nat m) ->
  le_split n v = le_split m v ++ repeat Byte.x00 (n - m).
Proof.
  intros Hmn Hv. replace n with (m + (n - m))%nat at 1 by lia.
  rewrite le_split_app. f_equal.
  rewrite Z.shiftr_div_pow2, Z.div_small by lia. apply le_split_zero.
Qed.

End BigIntFurther.

(** X11 (decoding a concatenation): for non-empty [a] and [b],
    [bigIntFromBytes] of [a] followed by [b] is the value of [a] shifted
    left by the byte length of [b], plus the value of [b]. *)
Theorem X11_bigIntFromBytes_concatenation (a b : Uint8Array) :
  a <> [] -> b <> [] ->
  exists x y,
    fst (bigIntFromBytes a) = Return x
    /\ fst (bigIntFromBytes b) = Return y
    /\ fst (bigIntFromBytes (a ++ b)) = Return (x * 256 ^ Z.of_nat (length b) + y).
Proof.
  intros Ha Hb. exists (be_sum a), (be_sum b).
  rewrite !bigIntFromBytes_spec;
    [| destruct a; [contradiction | discriminate] | exact Hb | exact Ha].
  cbn [fst]. rewrite be_sum_app. repeat split.
Qed.

Lemma X11_bigIntFromBytes_concatenation_witness :
  exists x y,
    fst (bigIntFromBytes [Byte.x01]) = Return x
    /\ fst (bigIntFromBytes [Byte.x02; Byte.x03]) = Return y
    /\ fst (bigIntFromBytes ([Byte.x01] ++ [Byte.x02; Byte.x03]))
       = Return (x * 256 ^ Z.of_nat (length [Byte.x02; Byte.x03]) + y).
Proof.
  apply (X11_bigIntFromBytes_concatenation [Byte.x01] [Byte.x02; Byte.x03]);
    discriminate.
Defined.

(** X12 (size of a decoded value): for a non-empty sequence of n bytes,
    [bigIntFromBytes] returns a value in [0, 256^n), and [bigIntBytes] of
    that value is never longer than the sequence. *)
Theorem X12_decoded_value_fits (bs : Uint8Array) :
  bs <> [] ->
  exists y,
    fst (bigIntFromBytes bs) = Return y
    /\ 0 <= y < 256 ^ Z.of_nat (length bs)
    /\ (length (bigIntBytes y) <= length bs)%nat.
Proof.
  intros Hne. exists (be_sum bs).
  pose proof (be_sum_bound bs) as Hb.
  rewrite bigIntFromBytes_spec by exact Hne. cbn [fst].
  split; [reflexivity |]. split; [rewrite pow_256; exact Hb |].
  destruct (bigIntBytes_length (be_sum bs)) as (_ & _ & Hmin).
  apply Hmin.
  - destruct bs; [contradiction | cbn; lia].
  - rewrite Z.abs_eq by lia. lia.
Qed.

Lemma X12_decoded_value_fits_witness :
  exists y,
    fst (bigIntFromBytes [Byte.x00; Byte.x00; Byte.x2a]) = Return y
    /\ 0 <= y < 256 ^ Z.of_nat (length [Byte.x00; Byte.x00; Byte.x2a])
    /\ (length (bigIntBytes y) <= length [Byte.x00; Byte.x00; Byte.x2a])%nat.
Proof.
  apply (X12_decoded_value_fits [Byte.x00; Byte.x00; Byte.x2a]). discriminate.
Defined.

(** X13 (length of the encoding): [bigIntBytes(value)] has
    floor(log2 |value| / 8) + 1 bytes, with log2 0 taken as 0; the width
    search computes this without a logarithm. *)
Theorem X13_bigIntBytes_length (value : Z) :
  length (bigIntBytes value) = (Z.to_nat (Z.log2 (Z.abs value) / 8) + 1)%nat.
Proof.
  destruct (bigIntBytes_length value) as (H1 & Hfit & Hmin).
  set (n := length (bigIntBytes value)) in *.
  set (a := Z.abs value) in *.
  assert (Ha : 0 <= a) by (unfold a; lia).
  pose proof (Z.log2_nonneg a) as HL.
  pose proof (Z.div_pos (Z.log2 a) 8 HL eq_refl) as Hq.
  pose proof (Z.mod_pos_bound (Z.log2 a) 8 eq_refl) as Hr.
  pose proof (Z.div_mod (Z.log2 a) 8) as Hdm.
  destruct (Z.eq_dec a 0) as [Hz | Hnz].
  - rewrite Hz in *. change (Z.log2 0 / 8) with 0. cbn [Z.to_nat Nat.add].
    apply Nat.le_antisymm; [| exact H1].
    apply Hmin; [lia | cbn; lia].
  - apply Nat.le_antisymm.
    + apply Hmin; [lia |].
      assert (a < 2 ^ (8 * Z.of_nat (Z.to_nat (Z.log2 a / 8) + 1))); [| lia].
      apply Z.log2_lt_pow2; lia.
    + assert (Hlt : Z.log2 a < 8 * Z.of_nat n) by (apply Z.log2_lt_pow2; lia).
      lia.
Qed.

(** X14 (the encoding identifies the magnitude): two integers have the
    same [bigIntBytes] encoding exactly when they have the same absolute
    value. *)
Theorem X14_bigIntBytes_injective_on_magnitude (x y : Z) :
  bigIntBytes x = bigIntBytes y <-> Z.abs x = Z.abs y.
Proof.
  split.
  - intros Heq.
    pose proof (decode_bigIntBytes x) as Hx.
    pose proof (decode_bigIntBytes y) as Hy.
    rewrite Heq in Hx. rewrite Hx in Hy. congruence.
  - intros Heq. rewrite !bigIntBytes_spec, Heq. reflexivity.
Qed.

(** X15 (fixed-width and arbitrary-precision encoders agree): the bytes a
    successful bigEndian put-uint writes are the [bigIntBytes] encoding of
    the same integer, padded on the left with zero bytes up to w/8. *)
Theorem X15_big_endian_put_is_padded_bigIntBytes
        (w : width) (v : Z) (k : nat) (target : Uint8Array) :
  (k + byte_count w <= length target)%nat ->
  0 <= v <= 2 ^ bit_count w - 1 ->
  (length (bigIntBytes v) <= byte_count w)%nat
  /\ span (snd (write bigEndian w v k target)) k (byte_count w)
     = repeat Byte.x00 (byte_count w - length (bigIntBytes v)) ++ bigIntBytes v.
Proof.
  intros Hlen Hv. change bigEndian with (instance Big).
  destruct (bigIntBytes_length v) as (H1 & Hfit & Hmin).
  rewrite Z.abs_eq in * by lia.
  assert (Hle : (length (bigIntBytes v) <= byte_count w)%nat).
  { apply Hmin; [destruct w; cbn; lia |].
    pose proof (in_range_bound w v Hv) as Hb.
    replace (8 * Z.of_nat (byte_count w)) with (Z.of_nat (byte_count w) * 8) by lia.
    lia. }
  split; [exact Hle |].
  rewrite write_spec by assumption. cbn [snd].
  rewrite span_written by (exact Hlen || apply length_encoding).
  unfold encoding.
  rewrite (le_split_padded v (length (bigIntBytes v)) (byte_count w)) by (exact Hle || lia).
  rewrite rev_app_distr, rev_repeat. f_equal.
  rewrite bigIntBytes_spec at 2. rewrite bigIntBytes_spec, length_rev, length_le_split.
  rewrite Z.abs_eq by lia. reflexivity.
Qed.

Lemma X15_padded_witness :
  (length (bigIntBytes 258) <= byte_count W32)%nat
  /\ span (snd (write bigEndian W32 258 0 (new_Uint8Array 4))) 0 (byte_count W32)
     = repeat Byte.x00 (byte_count W32 - length (bigIntBytes 258)) ++ bigIntBytes 258.
Proof.
  apply (X15_big_endian_put_is_padded_bigIntBytes W32 258 0 (new_Uint8Array 4));
    cbn; lia.
Defined.

(** ** The dynamic buffer: growth policy, clear, equivalent call sequences *)


(** X16 (growth policy of write): when a chunk does not fit, [write]
    raises the capacity to max(1, capacity) times a power of two, enough
    for the new length and less than twice the new length. *)
Theorem X16_write_growth_bounds (chunk : Uint8Array) (this : DynamicBuffer.t) :
  (DynamicBuffer.capacity this
   < DynamicBuffer.length this + Datatypes.length chunk)%nat ->
  exists this',
    DynamicBuffer.write chunk this = (Return tt, this')
    /\ (DynamicBuffer.length this' <= DynamicBuffer.capacity this')%nat
    /\ (DynamicBuffer.capacity this' < 2 * DynamicBuffer.length this')%nat
    /\ exists j,
         DynamicBuffer.capacity this'
         = (Nat.max 1 (DynamicBuffer.capacity this) * 2 ^ j)%nat.
Proof.
  intros Hgrow.
  destruct (write_grows chunk this Hgrow) as (this' & Hrun & Hlen & Hcap & _).
  exists this'. split; [exact Hrun |]. split; [| split].
  - rewrite Hcap, Hlen. apply grow_spec.
  - rewrite Hcap, Hlen. apply grow_upper. exact Hgrow.
  - destruct (grow_power_any
                (DynamicBuffer.length this + Datatypes.length chunk)
                (DynamicBuffer.capacity this)) as (j & [Hj | Hzero]).
    + exists j. rewrite Hcap. exact Hj.
    + exfalso.
      pose proof (grow_spec (DynamicBuffer.length this + Datatypes.length chunk)
                    (DynamicBuffer.capacity this)) as (Hneed & _).
      lia.
Qed.

Lemma X16_write_growth_bounds_witness :
  exists this',
    DynamicBuffer.write (new_Uint8Array 5) (DynamicBuffer.constructor 3)
    = (Return tt, this')
    /\ (DynamicBuffer.length this' <= DynamicBuffer.capacity this')%nat
    /\ (DynamicBuffer.capacity this' < 2 * DynamicBuffer.length this')%nat
    /\ exists j,
         DynamicBuffer.capacity this'
         = (Nat.max 1 (DynamicBuffer.capacity (DynamicBuffer.constructor 3)) * 2 ^ j)%nat.
Proof.
  apply (X16_write_growth_bounds (new_Uint8Array 5) (DynamicBuffer.constructor 3)).
  cbn. lia.
Defined.

(** X17 (clear, then write into the same storage): on a buffer whose
    backing store has [capacity] bytes, whatever its length, [clear]
    followed by a [write] of a chunk no longer than the capacity returns
    normally, leaves the capacity as it was, and [bytes()] is exactly the
    new chunk. *)
Theorem X17_clear_then_write_reuses_capacity
        (chunk : Uint8Array) (this : DynamicBuffer.t) :
  Datatypes.length (DynamicBuffer.value this) = DynamicBuffer.capacity this ->
  (Datatypes.length chunk <= DynamicBuffer.capacity this)%nat ->
  exists this',
    (DynamicBuffer.clear ;;; DynamicBuffer.write chunk) this = (Return tt, this')
    /\ DynamicBuffer.capacity this' = DynamicBuffer.capacity this
    /\ DynamicBuffer.length this' = Datatypes.length chunk
    /\ DynamicBuffer.bytes this' = chunk.
Proof.
  intros Hstore Hfit.
  set (cleared := {| DynamicBuffer.value := DynamicBuffer.value this;
                     DynamicBuffer.capacity := DynamicBuffer.capacity this;
                     DynamicBuffer.length := 0 |}).
  assert (Hclear : DynamicBuffer.clear this = (Return tt, cleared)) by reflexivity.
  assert (Hrep0 : represents cleared) by (split; cbn; [lia | exact Hstore]).
  destruct (write_spec_buffer chunk cleared Hrep0)
    as (this' & Hrun & _ & Hlen & Hbytes & Hcap).
  exists this'. unfold bind. rewrite Hclear, Hrun.
  split; [reflexivity |].
  cbn [cleared DynamicBuffer.length DynamicBuffer.capacity DynamicBuffer.value
       DynamicBuffer.bytes slice0 firstn app Nat.add] in Hlen, Hbytes, Hcap.
  replace (Datatypes.length chunk <=? DynamicBuffer.capacity this)%nat with true in Hcap
    by (symmetry; apply Nat.leb_le; exact Hfit).
  repeat split; assumption.
Qed.

Lemma X17_clear_then_write_witness :
  exists this',
    (DynamicBuffer.clear ;;; DynamicBuffer.write [Byte.x01; Byte.x02])
      {| DynamicBuffer.value := [Byte.x09; Byte.x09; Byte.x09; Byte.x09];
         DynamicBuffer.capacity := 4;
         DynamicBuffer.length := 3 |} = (Return tt, this')
    /\ DynamicBuffer.capacity this' = 4%nat
    /\ DynamicBuffer.length this' = Datatypes.length [Byte.x01; Byte.x02]
    /\ DynamicBuffer.bytes this' = [Byte.x01; Byte.x02].
Proof.
  apply (X17_clear_then_write_reuses_capacity [Byte.x01; Byte.x02]
           {| DynamicBuffer.value := [Byte.x09; Byte.x09; Byte.x09; Byte.x09];
              DynamicBuffer.capacity := 4;
              DynamicBuffer.length := 3 |}).
  - reflexivity.
  - cbn. lia.
Defined.

Section BufferSequences.

Import DynamicBuffer.

Lemma apply_operation_spec (op : operation) (this : t) :
  represents this ->
  exists this',
    apply_operation op this = (Return tt, this')
    /\ represents this'
    /\ bytes this' = content_after [op] (bytes this)
    /\ (capacity this <= capacity this')%nat.
Proof.
  intros Hrep. destruct op as [chunk | byte |]; cbn [apply_operation content_after].
  - destruct (write_spec_buffer chunk this Hrep)
      as (this' & Hrun & Hrep' & _ & Hbytes & _).
    pose proof (write_capacity chunk this this' Hrep Hrun) as Hcap.
    exists this'. repeat split; try assumption; try apply Hrep'.
    rewrite Hcap. apply grow_spec.
  - destruct (writeByte_spec byte this Hrep)
      as (this' & Hrun & Hrep' & _ & _ & Hbytes).
    destruct (writeByte_counters byte this (proj1 Hrep))
      as (s & Hrun' & _ & Hcap & _).
    rewrite Hrun in Hrun'. injection Hrun' as <-.
    exists this'. repeat split; try assumption; try apply Hrep'.
    rewrite Hcap. destruct (length this + 1 <=? capacity this)%nat; lia.
  - destruct (clear_spec this Hrep) as (this' & Hrun & Hrep' & _ & Hcap & Hbytes).
    exists this'. repeat split; try assumption; try apply Hrep'. lia.
Qed.

Lemma content_after_cons (op : operation) (ops : list operation) (before : Uint8Array) :
  content_after (op :: ops) before = content_after ops (content_after [op] before).
Proof. destruct op; reflexivity. Qed.

End BufferSequences.

(** X18 (any sequence of write, writeByte and clear): from a buffer whose
    store has [capacity] bytes and whose length is at most the capacity,
    every sequence of the three mutating methods returns normally, keeps
    [length <= capacity] with a store of [capacity] bytes, never lowers
    the capacity, and leaves [bytes()] equal to what was appended since
    the last [clear]. *)
Theorem X18_operation_sequences (ops : list operation) (this : DynamicBuffer.t) :
  represents this ->
  exists this',
    apply_operations ops this = (Return tt, this')
    /\ represents this'
    /\ DynamicBuffer.bytes this' = content_after ops (DynamicBuffer.bytes this)
    /\ (DynamicBuffer.capacity this <= DynamicBuffer.capacity this')%nat.
Proof.
  revert this. induction ops as [| op rest IH]; intros this Hrep.
  - exists this. repeat split; try apply Hrep. lia.
  - destruct (apply_operation_spec op this Hrep)
      as (mid & Hrun & Hrep' & Hbytes & Hcap).
    destruct (IH mid Hrep') as (this' & Hrun' & Hrep'' & Hbytes' & Hcap').
    exists this'. cbn [apply_operations]. unfold bind. rewrite Hrun, Hrun'.
    rewrite content_after_cons, <- Hbytes.
    repeat split; try apply Hrep''; [exact Hbytes' | lia].
Qed.

Lemma X18_operation_sequences_witness :
  exists this',
    apply_operations [DoWrite [Byte.x01; Byte.x02]; DoClear; DoWriteByte 3]
      (DynamicBuffer.constructor 0) = (Return tt, this')
    /\ represents this'
    /\ DynamicBuffer.bytes this'
       = content_after [DoWrite [Byte.x01; Byte.x02]; DoClear; DoWriteByte 3]
           (DynamicBuffer.bytes (DynamicBuffer.constructor 0))
    /\ (DynamicBuffer.capacity (DynamicBuffer.constructor 0)
        <= DynamicBuffer.capacity this')%nat.
Proof.
  apply (X18_operation_sequences
           [DoWrite [Byte.x01; Byte.x02]; DoClear; DoWriteByte 3]
           (DynamicBuffer.constructor 0)).
  apply constructor_represents.
Defined.

(** X19 (chunking does not matter): on a buffer whose backing store has
    [capacity] bytes and whose length is at most the capacity, writing
    [a] and then [b] returns normally and leaves the same length, the
    same capacity and the same [bytes()] as one write of [a] followed by
    [b]. *)
Theorem X19_two_writes_as_one (a b : Uint8Array) (this : DynamicBuffer.t) :
  represents this ->
  exists twice joined,
    (DynamicBuffer.write a ;;; DynamicBuffer.write b) this = (Return tt, twice)
    /\ DynamicBuffer.write (a ++ b) this = (Return tt, joined)
    /\ DynamicBuffer.length twice = DynamicBuffer.length joined
    /\ DynamicBuffer.capacity twice = DynamicBuffer.capacity joined
    /\ DynamicBuffer.bytes twice = DynamicBuffer.bytes joined.
Proof.
  intros Hrep.
  destruct (write_spec_buffer a this Hrep) as (s1 & Hrun1 & Hrep1 & Hlen1 & Hbytes1 & _).
  destruct (write_spec_buffer b s1 Hrep1) as (s2 & Hrun2 & _ & Hlen2 & Hbytes2 & _).
  destruct (write_spec_buffer (a ++ b) this Hrep) as (s & Hrun & _ & Hlen & Hbytes & _).
  pose proof (write_capacity a this s1 Hrep Hrun1) as Hcap1.
  pose proof (write_capacity b s1 s2 Hrep1 Hrun2) as Hcap2.
  pose proof (write_capacity (a ++ b) this s Hrep Hrun) as Hcap.
  exists s2, s. unfold bind. rewrite Hrun1, Hrun2.
  split; [reflexivity |]. split; [exact Hrun |]. split; [| split].
  - rewrite Hlen2, Hlen1, Hlen, length_app. lia.
  - rewrite Hcap2, Hcap1, Hcap, Hlen1, length_app.
    rewrite grow_grow by lia. f_equal. lia.
  - rewrite Hbytes2, Hbytes1, Hbytes. symmetry. apply app_assoc.
Qed.

Lemma X19_two_writes_as_one_witness :
  exists twice joined,
    (DynamicBuffer.write [Byte.x01] ;;; DynamicBuffer.write [Byte.x02; Byte.x03])
      (DynamicBuffer.constructor 0) = (Return tt, twice)
    /\ DynamicBuffer.write ([Byte.x01] ++ [Byte.x02; Byte.x03])
         (DynamicBuffer.constructor 0) = (Return tt, joined)
    /\ DynamicBuffer.length twice = DynamicBuffer.length joined
    /\ DynamicBuffer.capacity twice = DynamicBuffer.capacity joined
    /\ DynamicBuffer.bytes twice = DynamicBuffer.bytes joined.
Proof.
  apply (X19_two_writes_as_one [Byte.x01] [Byte.x02; Byte.x03]
           (DynamicBuffer.constructor 0)).
  apply constructor_represents.
Defined.

(** X20 (writeByte is write of one byte): on a buffer whose backing store
    has [capacity] bytes and whose length is at most the capacity,
    [writeByte(byte)] leaves exactly the state that [write] of the
    one-element array holding that byte leaves: the same store, capacity
    and length. *)
Theorem X20_writeByte_is_write_of_one (byte : Z) (this : DynamicBuffer.t) :
  represents this ->
  DynamicBuffer.writeByte byte this = DynamicBuffer.write [byte.of_Z byte] this.
Proof.
  intros (Hle & Hstore).
  unfold DynamicBuffer.writeByte, DynamicBuffer.write. cbn [Datatypes.length].
  unfold bind, get, ret, DynamicBuffer.put_capacity, DynamicBuffer.put_value,
    DynamicBuffer.put_length, DynamicBuffer.typed_set.
  destruct (Nat.leb_spec (DynamicBuffer.length this + 1) (DynamicBuffer.capacity this))
    as [Hfit | Hgrow].
  - unfold set, assign, throw. cbn [Datatypes.length].
    replace (Datatypes.length (DynamicBuffer.value this) <? DynamicBuffer.length this + 1)%nat
      with false by (symmetry; apply Nat.ltb_ge; lia).
    replace (DynamicBuffer.length this <? Datatypes.length (DynamicBuffer.value this))%nat
      with true by (symmetry; apply Nat.ltb_lt; lia).
    replace (S (DynamicBuffer.length this)) with (DynamicBuffer.length this + 1)%nat by lia.
    reflexivity.
  - rewrite grow_step by lia.
    rewrite (grow_fits (DynamicBuffer.length this + 1))
      by (destruct (Nat.eqb_spec (DynamicBuffer.capacity this) 0); lia).
    set (c := if (DynamicBuffer.capacity this =? 0)%nat then 1%nat
              else (DynamicBuffer.capacity this * 2)%nat).
    assert (Hc : (DynamicBuffer.length this < c)%nat)
      by (unfold c; destruct (Nat.eqb_spec (DynamicBuffer.capacity this) 0); lia).
    clearbody c.
    cbn [DynamicBuffer.value DynamicBuffer.capacity DynamicBuffer.length].
    destruct (set_spec (new_Uint8Array c)
                (subarray0 (DynamicBuffer.value this) (DynamicBuffer.length this)) 0)
      as (v1 & Hset1 & Hv1 & _);
      [unfold new_Uint8Array, subarray0; rewrite repeat_length, length_firstn; lia |].
    unfold new_Uint8Array in Hv1. rewrite repeat_length in Hv1.
    rewrite Hset1. unfold ret, throw. cbv beta iota.
    cbn [DynamicBuffer.value DynamicBuffer.capacity DynamicBuffer.length].
    unfold set, assign. cbn [Datatypes.length].
    replace (Datatypes.length v1 <? DynamicBuffer.length this + 1)%nat
      with false by (symmetry; apply Nat.ltb_ge; lia).
    replace (DynamicBuffer.length this <? Datatypes.length v1)%nat
      with true by (symmetry; apply Nat.ltb_lt; lia).
    replace (S (DynamicBuffer.length this)) with (DynamicBuffer.length this + 1)%nat by lia.
    reflexivity.
Qed.

Lemma X20_writeByte_is_write_of_one_witness :
  DynamicBuffer.writeByte 300 (DynamicBuffer.constructor 1)
  = DynamicBuffer.write [byte.of_Z 300] (DynamicBuffer.constructor 1).
Proof.
  apply (X20_writeByte_is_write_of_one 300 (DynamicBuffer.constructor 1)).
  apply constructor_represents.
Defined.

(** ** Reads as functions of the span *)

Section ReadSpans.

Lemma ToInt32_inj (u1 u2 : Z) :
  0 <= u1 < 2 ^ 32 -> 0 <= u2 < 2 ^ 32 -> ToInt32 u1 = ToInt32 u2 -> u1 = u2.
Proof.
  intros H1 H2. rewrite !ToInt32_uint32 by assumption.
  destruct (Z.ltb_spec u1 (2 ^ 31)), (Z.ltb_spec u2 (2 ^ 31)); intros Heq; lia.
Qed.

Lemma decoding_inj (e : endianness) (bs1 bs2 : list byte) :
  length bs1 = length bs2 -> decoding e bs1 = decoding e bs2 -> bs1 = bs2.
Proof.
  intros Hlen Heq. destruct e; unfold decoding in Heq.
  - apply le_combine_inj in Heq; [| rewrite !length_rev; exact Hlen].
    apply (f_equal (@rev byte)) in Heq. rewrite !rev_involutive in Heq. exact Heq.
  - apply le_combine_inj; assumption.
Qed.

End ReadSpans.

(** X21 (offsets are relative): reading at offset [j + k] returns what
    reading at offset [k] returns on the array with its first [j] bytes
    dropped (the view [data.subarray(j)]), for every width and byte
    order, failures included. *)
Theorem X21_read_is_translation_invariant
        (e : endianness) (w : width) (j k : nat) (data : Uint8Array) :
  fst (read (instance e) w (j + k) data)
  = fst (read (instance e) w k (skipn j data)).
Proof.
  destruct (Nat.lt_ge_cases (length data) (j + k + byte_count w)) as [Hshort | Hfits].
  - rewrite (read_short e w (j + k) data) by exact Hshort.
    rewrite (read_short e w k (skipn j data))
      by (rewrite length_skipn; destruct w; cbn in *; lia).
    reflexivity.
  - rewrite (read_spec e w (j + k) data) by exact Hfits.
    rewrite (read_spec e w k (skipn j data)) by (rewrite length_skipn; lia).
    cbn [fst]. unfold span. rewrite skipn_skipn.
    replace (k + j)%nat with (j + k)%nat by lia. reflexivity.
Qed.

(** X22 (a read determines its bytes): two reads of the same width and
    byte order return the same number exactly when the two spans they
    read hold the same bytes; this holds for the 32-bit readers too,
    whose results may be negative. *)
Theorem X22_read_determines_span
        (e : endianness) (w : width) (k1 k2 : nat) (data1 data2 : Uint8Array) :
  (k1 + byte_count w <= length data1)%nat ->
  (k2 + byte_count w <= length data2)%nat ->
  fst (read (instance e) w k1 data1) = fst (read (instance e) w k2 data2)
  <-> span data1 k1 (byte_count w) = span data2 k2 (byte_count w).
Proof.
  intros H1 H2. rewrite !read_spec by assumption. cbn [fst]. split.
  - intros Heq. injection Heq as Heq.
    pose proof (length_span data1 k1 _ H1) as Hl1.
    pose proof (length_span data2 k2 _ H2) as Hl2.
    apply (decoding_inj e); [congruence |].
    destruct w; cbn [as_returned] in Heq; try exact Heq.
    pose proof (decoding_in_range e W32 _ Hl1) as Hr1.
    pose proof (decoding_in_range e W32 _ Hl2) as Hr2.
    cbn [bit_count] in Hr1, Hr2.
    apply ToInt32_inj; [lia | lia | exact Heq].
  - intros ->. reflexivity.
Qed.

Lemma X22_read_determines_span_witness :
  fst (read (instance Big) W32 0 [Byte.xff; Byte.x00; Byte.x00; Byte.x01])
  = fst (read (instance Big) W32 1 [Byte.x07; Byte.xff; Byte.x00; Byte.x00; Byte.x01])
  <-> span [Byte.xff; Byte.x00; Byte.x00; Byte.x01] 0 (byte_count W32)
      = span [Byte.x07; Byte.xff; Byte.x00; Byte.x00; Byte.x01] 1 (byte_count W32).
Proof.
  apply (X22_read_determines_span Big W32 0 1); cbn; lia.
Defined.
